(** * aw-core: interval transforms, query evaluator and storage strategies

    A shallow embedding of
      - aw_transform/filter_period_intersect.py,
      - aw_core/query.py,
      - aw_datastore/storage_strategies.py,
    together with the properties of them that the specification states.

    Instants and spans are integers (Python's datetime and timedelta count
    whole microseconds), dictionaries are finite maps, Python exceptions are
    the left summand of a sum type. *)

From Stdlib Require Import ZArith QArith Lqa Lia.
From Equations Require Import Equations.
From stdpp Require Import gmap strings pretty list sorting.

Local Open Scope Z_scope.

(** ** Events *)

(** Modelled from the spec: aw_core.models.Event is not among the sources.
    An event is [{timestamp, duration, data}], the data being a mapping from
    strings to values. *)
Record Event := mkEvent {
  timestamp : Z;
  duration : Z;
  data : gmap string string;
}.

(** Modelled from the spec: the comparison of aw_core.models.Event is not
    among the sources. Events are ordered by [(timestamp, duration)]
    ascending; the data takes no part in the comparison. *)
Definition Event_lt (a b : Event) : bool :=
  (timestamp a <? timestamp b)
  || ((timestamp a =? timestamp b) && (duration a <? duration b)).

(** Python's [sorted] is a stable sort: it returns the one permutation of
    its argument that is ascending and keeps elements that compare equal in
    their input order. Insertion from the right computes that permutation. *)
Fixpoint sorted_insert (x : Event) (l : list Event) : list Event :=
  match l with
  | [] => [x]
  | y :: l' => if Event_lt y x then y :: sorted_insert x l' else x :: y :: l'
  end.

Fixpoint sorted (l : list Event) : list Event :=
  match l with
  | [] => []
  | x :: l' => sorted_insert x (sorted l')
  end.

(** ** Time periods *)

(** Modelled from the spec: aw_core.TimePeriod is not among the sources.
    Section 4.1 of the specification gives its operations. *)
Module TimePeriod.

Record t := mk { start : Z; end_ : Z }.

Definition duration (p : t) : Z := end_ p - start p.

(** "the overlapping sub-period, or no intersection if
    max(a.start,b.start) >= min(a.end,b.end)" *)
Definition intersection (a b : t) : option t :=
  let s := Z.max (start a) (start b) in
  let e := Z.min (end_ a) (end_ b) in
  if e <=? s then None else Some (mk s e).

(** "{start: min(a.start,b.start), end: max(a.end,b.end)}" *)
Definition union (a b : t) : t :=
  mk (Z.min (start a) (start b)) (Z.max (end_ a) (end_ b)).

(** "true iff the periods neither overlap nor touch
    (a.end < b.start or b.end < a.start)" *)
Definition gap (a b : t) : bool :=
  (end_ a <? start b) || (end_ b <? start a).

End TimePeriod.

(** ** aw_transform/filter_period_intersect.py *)

Definition _get_event_period (event : Event) : TimePeriod.t :=
  let start := timestamp event in
  let end_ := start + duration event in
  TimePeriod.mk start end_.

(** [deepcopy] gives a fresh event: the argument is left as it was. *)
Definition _replace_event_period (event : Event) (period : TimePeriod.t) : Event :=
  {| timestamp := TimePeriod.start period;
     duration := TimePeriod.duration period;
     data := data event |}.

(** What one turn of the loop of [_intersecting_eventpairs] lets out: a
    yielded triple, or a line written with [logger.error]. *)
Inductive sweep_output :=
  | Yield (e1 e2 : Event) (ip : TimePeriod.t)
  | LogError (msg : string).

Definition unreachable_msg : string := "Should be unreachable, skipping period".

(** A value together with the equation that says where it came from, for the
    bounds of the list lookups below. *)
Definition inspect {A} (a : A) : {b : A | a = b} := exist _ a eq_refl.

(** The [while] loop of [_intersecting_eventpairs], started at the indices
    [e1_i] and [e2_i]. Every turn moves at least one index forward, so the
    loop ends. *)
Equations? sweep (events1 events2 : list Event) (e1_i e2_i : nat) : list sweep_output
  by wf ((length events1 - e1_i) + (length events2 - e2_i))%nat lt :=
  sweep events1 events2 e1_i e2_i with inspect (events1 !! e1_i) => {
    | exist _ None _ => [];
    | exist _ (Some e1) H1 with inspect (events2 !! e2_i) => {
      | exist _ None _ => [];
      | exist _ (Some e2) H2 =>
          let e1_p := _get_event_period e1 in
          let e2_p := _get_event_period e2 in
          match TimePeriod.intersection e1_p e2_p with
          | Some ip =>
              Yield e1 e2 ip ::
              (if TimePeriod.end_ e1_p <=? TimePeriod.end_ e2_p
               then sweep events1 events2 (e1_i + 1) e2_i
               else sweep events1 events2 e1_i (e2_i + 1))
          | None =>
              if TimePeriod.end_ e1_p <=? TimePeriod.start e2_p
              then sweep events1 events2 (e1_i + 1) e2_i
              else if TimePeriod.end_ e2_p <=? TimePeriod.start e1_p
              then sweep events1 events2 e1_i (e2_i + 1)
              else LogError unreachable_msg ::
                   sweep events1 events2 (e1_i + 1) (e2_i + 1)
          end } }.
Proof.
  all: apply lookup_lt_Some in H1; apply lookup_lt_Some in H2; lia.
Qed.

(** The generator [_intersecting_eventpairs]: the triples the loop yields,
    in the order it yields them. *)
Definition yields (out : list sweep_output) : list (Event * Event * TimePeriod.t) :=
  omap (λ o, match o with Yield e1 e2 ip => Some (e1, e2, ip) | LogError _ => None end) out.

(** The lines the loop writes to the error log. *)
Definition logged (out : list sweep_output) : list string :=
  omap (λ o, match o with Yield _ _ _ => None | LogError msg => Some msg end) out.

Definition _intersecting_eventpairs (events1 events2 : list Event)
  : list (Event * Event * TimePeriod.t) :=
  yields (sweep events1 events2 0 0).

Definition filter_period_intersect (events filterevents : list Event) : list Event :=
  let events := sorted events in
  let filterevents := sorted filterevents in
  map (λ '(e1, _, ip), _replace_event_period e1 ip)
      (_intersecting_eventpairs events filterevents).

(** One turn of the [for] loop of [period_union]. [merged_events] is never
    empty inside the loop (the first event is appended before the loop
    starts), so it is kept as the events before the last and the last. *)
Definition period_union_step (merged : list Event * Event) (e : Event)
  : list Event * Event :=
  let '(init, last_event) := merged in
  let e_p := _get_event_period e in
  let le_p := _get_event_period last_event in
  if negb (TimePeriod.gap e_p le_p)
  then
    let new_period := TimePeriod.union e_p le_p in
    (init, _replace_event_period last_event new_period)
  else (init ++ [last_event], e).

Definition period_union (events1 events2 : list Event) : list Event :=
  match sorted (events1 ++ events2) with
  | [] => []
  | first :: events =>
      let '(init, last_event) := fold_left period_union_step events ([], first) in
      init ++ [last_event]
  end.

(** ** Python values the models share *)

(** The exceptions the sources raise, by class. *)
Inductive exception := QueryException | KeyError.

(** A call that returns a value or raises. *)
Definition result (A : Type) : Type := exception + A.

Definition result_bind {A B} (r : result A) (k : A → result B) : result B :=
  match r with
  | inl e => inl e
  | inr a => k a
  end.

(** The slice [l[start:]]: a negative [start] counts from the end of the
    list, and a start outside the list is clamped to its ends. *)
Definition py_slice_from {A} (start : Z) (l : list A) : list A :=
  if start <? 0
  then drop (Z.to_nat (Z.max 0 (Z.of_nat (length l) + start))) l
  else drop (Z.to_nat start) l.

(** ** aw_datastore/storage_strategies.py *)

Record Metadata := mkMetadata {
  md_id : string;
  md_name : string;
  md_type : string;
  md_client : string;
  md_hostname : string;
  md_created : Z;
}.

(** [if not name: name = "{}-{}".format(client, hostname)]: an absent and
    an empty name are both replaced. *)
Definition default_name (name : option string) (client hostname : string) : string :=
  match name with
  | None | Some EmptyString => client +:+ "-" +:+ hostname
  | Some n => n
  end.

Module MemoryStorageStrategy.

(** The two dictionaries of an instance. The methods change them in
    place; here each method that does returns the instance after it. *)
Record t := mk {
  db : gmap string (list Event);
  _metadata : gmap string Metadata;
}.

Definition init : t := mk ∅ ∅.

Definition create_bucket (self : t) (bucket_id type_id client hostname : string)
    (created : Z) (name : option string) : t :=
  let name := default_name name client hostname in
  mk (<[bucket_id := []]> (db self))
     (<[bucket_id := mkMetadata bucket_id name type_id client hostname created]>
        (_metadata self)).

(** The two [del] statements run one after the other: when the second
    raises, the first has already removed the event log. *)
Definition delete_bucket (self : t) (bucket_id : string) : result unit * t :=
  match db self !! bucket_id with
  | None => (inl KeyError, self)
  | Some _ =>
      let self := mk (delete bucket_id (db self)) (_metadata self) in
      match _metadata self !! bucket_id with
      | None => (inl KeyError, self)
      | Some _ => (inr (), mk (db self) (delete bucket_id (_metadata self)))
      end
  end.

Definition get_metadata (self : t) (bucket_id : string) : result Metadata :=
  match _metadata self !! bucket_id with
  | None => inl KeyError
  | Some md => inr md
  end.

(** The loop over the keys of [db]: whatever their order, it gives the
    metadata of all of them, or raises at one that has none. *)
Definition buckets (self : t) : result (gmap string Metadata) :=
  foldl (λ buckets bucket_id,
           result_bind buckets (λ buckets,
           result_bind (get_metadata self bucket_id) (λ md,
           inr (<[bucket_id := md]> buckets))))
        (inr ∅) (elements (dom (db self))).

Definition get (self : t) (bucket : string) (limit : Z) : list Event :=
  match db self !! bucket with
  | None => []
  | Some events => py_slice_from (- limit) events
  end.

Definition insert_one (self : t) (bucket : string) (event : Event) : t :=
  let self :=
    match db self !! bucket with
    | None => mk (<[bucket := []]> (db self)) (_metadata self)
    | Some _ => self
    end in
  mk (alter (λ events, events ++ [event]) bucket (db self)) (_metadata self).

(** Inherited from [StorageStrategy]. *)
Definition insert_many (self : t) (bucket : string) (events : list Event) : t :=
  foldl (λ self event, insert_one self bucket event) self events.

End MemoryStorageStrategy.

Module FileStorageStrategy.
Section json.

(** [json.loads] on a line of an events file: the JSON encoding of an
    event is not among the sources. *)
Variable json_loads : string → Event.

(** The regular files below the buckets directory, each as its lines, and
    the fields of an instance that [get] reads. *)
Record t := mk {
  files : gmap string (list string);
  buckets_dir : string;
  _fileno : nat;
}.

Definition _get_bucket_dir (self : t) (bucket_id : string) : string :=
  buckets_dir self +:+ "/" +:+ bucket_id.

Definition _get_filename (self : t) (bucket_id : string) : string :=
  let bucket_dir := _get_bucket_dir self bucket_id in
  bucket_dir +:+ "/events-" +:+ pretty (_fileno self) +:+ ".json".

Definition get (self : t) (bucket : string) (limit : Z) : list Event :=
  let filename := _get_filename self bucket in
  match files self !! filename with
  | None => []
  | Some lines => map json_loads (py_slice_from (- limit) lines)
  end.

End json.
End FileStorageStrategy.

(** ** The datastore *)

(** Modelled from the spec: aw_datastore.Datastore is not among the sources.
    It is the handle that exposes [buckets()], the mapping from the bucket
    ids to their metadata, and the events of each bucket through
    [ds[bucket].get(limit, start, end)]; it hands both to its storage
    strategy. *)
Record Datastore := mkDatastore {
  ds_buckets : gmap string Metadata;
  ds_get : string → Z → option Z → option Z → list Event;
}.

(** Modelled from the spec: "optionally restricted to [start, end]". The
    storage strategies take no bounds, so the datastore applies them. *)
Definition restrict_to (start end_ : option Z) (events : list Event) : list Event :=
  List.filter
    (λ e, match start with Some s => s <=? timestamp e | None => true end
          && match end_ with Some s => timestamp e <=? s | None => true end)
    events.

(** Modelled from the spec: a datastore over the in-memory strategy. There
    is one when the strategy can list its buckets. *)
Definition memory_datastore (st : MemoryStorageStrategy.t) : result Datastore :=
  result_bind (MemoryStorageStrategy.buckets st) (λ buckets,
  inr (mkDatastore buckets
         (λ bucket limit start end_,
            restrict_to start end_ (MemoryStorageStrategy.get st bucket limit)))).

(** ** aw_core/query.py *)

(** The value of a field that the evaluator tests with [isinstance]. *)
Inductive json_value :=
  | JStr (s : string)
  | JNum (n : Z)
  | JBool (b : bool)
  | JNull.

(** The dictionaries of a query document. A field that the evaluator reads
    is [None] when the dictionary has no such key. *)
Inductive BucketTransform := mkBucketTransform {
  bt_bucket : option json_value;
  bt_filters : option (list Filter);
}
with Filter := mkFilter {
  f_name : option json_value;
  f_labels : option (list string);
  f_transforms : option (list BucketTransform);
}.

Record Query := mkQuery {
  q_transforms : option (list BucketTransform);
  q_chunk : option bool;
}.

(** What the evaluator calls and the sources do not hold: the label filters
    and the chunking of aw_core.transforms, and [Event.to_json_dict]. *)
Class Transforms (ChunkResult EventJson : Type) := {
  transforms_include_labels : list Event → list string → list Event;
  transforms_exclude_labels : list Event → list string → list Event;
  transforms_chunk : list Event → ChunkResult;
  to_json_dict : Event → EventJson;
}.

Inductive QueryResult (ChunkResult EventJson : Type) :=
  | Chunked (chunks : ChunkResult)
  | EventList (eventcount : nat) (eventlist : list EventJson).
Arguments Chunked {ChunkResult EventJson} chunks.
Arguments EventList {ChunkResult EventJson} eventcount eventlist.

Section query.
Context `{Transforms ChunkResult EventJson}.

Definition include_labels (tfilter : Filter) (events : list Event) (ds : Datastore)
    (limit : Z) (start end_ : option Z) : list Event :=
  match f_labels tfilter with
  | None => []
  | Some labels => transforms_include_labels events labels
  end.

Definition exclude_labels (tfilter : Filter) (events : list Event) (ds : Datastore)
    (limit : Z) (start end_ : option Z) : list Event :=
  match f_labels tfilter with
  | None => events
  | Some labels => transforms_exclude_labels events labels
  end.

(** [for t in ts: events += f(t)], from the events gathered so far. *)
Definition extend_each (f : BucketTransform → result (list Event))
  : list BucketTransform → list Event → result (list Event) :=
  fix go ts events :=
    match ts with
    | [] => inr events
    | t :: ts' => result_bind (f t) (λ r, go ts' (events ++ r))
    end.

(** [timeperiod_intersect] and [bucket_transform] call each other; the
    filter takes the function it calls back as [bucket_transform]. *)
Definition timeperiod_intersect
    (bucket_transform :
       BucketTransform → Datastore → Z → option Z → option Z → result (list Event))
    (tfilter : Filter) (events : list Event) (ds : Datastore)
    (limit : Z) (start end_ : option Z) : result (list Event) :=
  match f_transforms tfilter with
  | None => inl KeyError
  | Some transforms =>
      result_bind
        (extend_each (λ btransform, bucket_transform btransform ds limit start end_)
           transforms [])
        (λ filterevents, inr (filter_period_intersect events filterevents))
  end.

(** The table [filters], looked up at [filtername] and called: [None] when
    the table has no such key. *)
Definition filters
    (bucket_transform :
       BucketTransform → Datastore → Z → option Z → option Z → result (list Event))
    (filtername : string)
    (vfilter : Filter) (events : list Event) (ds : Datastore)
    (limit : Z) (start end_ : option Z) : option (result (list Event)) :=
  if decide (filtername = "exclude_labels")
  then Some (inr (exclude_labels vfilter events ds limit start end_))
  else if decide (filtername = "include_labels")
  then Some (inr (include_labels vfilter events ds limit start end_))
  else if decide (filtername = "timeperiod_intersect")
  then Some (timeperiod_intersect bucket_transform vfilter events ds limit start end_)
  else None.

(** [for vfilter in fs: events = apply(vfilter, events)]. *)
Definition apply_each (apply : Filter → list Event → result (list Event))
  : list Filter → list Event → result (list Event) :=
  fix go fs events :=
    match fs with
    | [] => inr events
    | vfilter :: fs' => result_bind (apply vfilter events) (go fs')
    end.

(** The body of the loop over the filters of a transform: the checks on
    the filter's name, then the call through the table. *)
Definition apply_filter
    (bucket_transform :
       BucketTransform → Datastore → Z → option Z → option Z → result (list Event))
    (vfilter : Filter) (events : list Event) (ds : Datastore)
    (limit : Z) (start end_ : option Z) : result (list Event) :=
  match f_name vfilter with
  | None => inl QueryException
  | Some (JStr filtername) =>
      match filters bucket_transform filtername vfilter events ds limit start end_ with
      | None => inl QueryException
      | Some events => events
      end
  | Some _ => inl QueryException
  end.

Fixpoint bucket_transform (btransform : BucketTransform) (ds : Datastore)
    (limit : Z) (start end_ : option Z) {struct btransform} : result (list Event) :=
  match bt_bucket btransform with
  | None => inl QueryException
  | Some (JStr bucket) =>
      if decide (bucket ∈ dom (ds_buckets ds)) then
        let events := ds_get ds bucket limit start end_ in
        match bt_filters btransform with
        | None => inr events
        | Some fs =>
            apply_each
              (λ vfilter events,
                 apply_filter bucket_transform vfilter events ds limit start end_)
              fs events
        end
      else inl QueryException
  | Some _ => inl QueryException
  end.

Definition query (query : Query) (ds : Datastore) (limit : Z) (start end_ : option Z)
  : result (QueryResult ChunkResult EventJson) :=
  match q_transforms query with
  | None => inl KeyError
  | Some transforms =>
      result_bind
        (extend_each (λ transform, bucket_transform transform ds limit start end_)
           transforms [])
        (λ events,
           if default false (q_chunk query)
           then inr (Chunked (transforms_chunk events))
           else inr (EventList (length events) (map to_json_dict events)))
  end.

End query.

(** ** Definitions the statements below use *)

(** One turn of the sweep on the events at the two indices: what it lets
    out, and whether each index moves. *)
Definition sweep_turn (e1 e2 : Event) : list sweep_output * bool * bool :=
  let e1_p := _get_event_period e1 in
  let e2_p := _get_event_period e2 in
  match TimePeriod.intersection e1_p e2_p with
  | Some ip =>
      if TimePeriod.end_ e1_p <=? TimePeriod.end_ e2_p
      then ([Yield e1 e2 ip], true, false)
      else ([Yield e1 e2 ip], false, true)
  | None =>
      if TimePeriod.end_ e1_p <=? TimePeriod.start e2_p then ([], true, false)
      else if TimePeriod.end_ e2_p <=? TimePeriod.start e1_p then ([], false, true)
      else ([LogError unreachable_msg], true, true)
  end.

Fixpoint sweep_rest (l1 : list Event) : list Event → list sweep_output :=
  fix inner (l2 : list Event) : list sweep_output :=
    match l1, l2 with
    | e1 :: l1', e2 :: l2' =>
        match sweep_turn e1 e2 with
        | (out, true, false) => out ++ sweep_rest l1' l2
        | (out, false, true) => out ++ inner l2'
        | (out, _, _) => out ++ sweep_rest l1' l2'
        end
    | _, _ => []
    end.

(** [a] comes no later than [b] in the order on [(timestamp, duration)]. *)
Definition key_le (a b : Event) : Prop :=
  timestamp a < timestamp b ∨ (timestamp a = timestamp b ∧ duration a <= duration b).

(** The periods of two lists are pairwise separated by a gap: no period of
    the one overlaps or touches a period of the other. *)
Definition pairwise_gap (events filterevents : list Event) : Prop :=
  ∀ e1 e2, e1 ∈ events → e2 ∈ filterevents →
    TimePeriod.gap (_get_event_period e1) (_get_event_period e2) = true.

(** The events [filter_period_intersect] makes of what the sweep lets out. *)
Definition clip (out : list sweep_output) : list Event :=
  map (λ '(e1, _, ip), _replace_event_period e1 ip) (yields out).

(** Ascending by timestamp alone. *)
Definition timestamp_le (a b : Event) : Prop := timestamp a <= timestamp b.

(** [a] ends before [b] starts: a gap lies between them. *)
Definition ends_before (a b : Event) : Prop :=
  timestamp a + duration a < timestamp b.

(** What [period_union] makes of the last merged event when it merges [e]
    into it. *)
Definition absorb (last_event e : Event) : Event :=
  _replace_event_period last_event
    (TimePeriod.union (_get_event_period e) (_get_event_period last_event)).

(** The loop of [period_union] with the last merged event and the events
    still to come: the merged events from the last one on. *)
Fixpoint merge_from (last_event : Event) (events : list Event) : list Event :=
  match events with
  | [] => [last_event]
  | e :: events' =>
      if negb (TimePeriod.gap (_get_event_period e) (_get_event_period last_event))
      then merge_from (absorb last_event e) events'
      else last_event :: merge_from e events'
  end.


(** ** The recursive filter scenario of the specification *)

Definition scenario_A : Event := mkEvent 0 10 {["label" := "x"]}.
Definition scenario_B : Event := mkEvent 2 3 ∅.

Definition scenario_store : MemoryStorageStrategy.t :=
  let st := MemoryStorageStrategy.init in
  let st := MemoryStorageStrategy.create_bucket st "A" "window" "client" "host" 0 None in
  let st := MemoryStorageStrategy.create_bucket st "B" "afk" "client" "host" 0 None in
  let st := MemoryStorageStrategy.insert_one st "A" scenario_A in
  MemoryStorageStrategy.insert_one st "B" scenario_B.

Definition scenario_datastore : Datastore :=
  mkDatastore
    (<["B" := mkMetadata "B" "client-host" "afk" "client" "host" 0]>
       (<["A" := mkMetadata "A" "client-host" "window" "client" "host" 0]> ∅))
    (λ bucket limit start end_,
       restrict_to start end_ (MemoryStorageStrategy.get scenario_store bucket limit)).

Definition scenario_query : Query :=
  mkQuery
    (Some [mkBucketTransform (Some (JStr "A"))
             (Some [mkFilter (Some (JStr "timeperiod_intersect")) None
                      (Some [mkBucketTransform (Some (JStr "B")) None])])])
    None.

(** ** An instance of the collaborators, to run the evaluator on examples *)

(** The event carries one of the labels. *)
Definition has_label (labels : list string) (e : Event) : bool :=
  match data e !! "label" with
  | Some l => bool_decide (l ∈ labels)
  | None => false
  end.

(** Modelled from the spec: aw_core.transforms and [Event.to_json_dict] are
    not among the sources. [include_labels] keeps "only events whose data
    contains at least one label in the set" and [exclude_labels] drops
    them; the serialisation is "lossless for timestamp, duration, and
    data", here the event itself; the chunking is out of the
    specification's scope and hands the events on. *)
Definition example_transforms : Transforms (list Event) Event :=
  {| transforms_include_labels events labels := List.filter (has_label labels) events;
     transforms_exclude_labels events labels :=
       List.filter (λ e, negb (has_label labels e)) events;
     transforms_chunk events := events;
     to_json_dict e := e |}.

(** ** The rest of aw_transform/filter_period_intersect.py *)

Module aw_transform.

Definition union (events1 events2 : list Event) : list Event :=
  sorted (events1 ++ events2).

End aw_transform.

(** ** Definitions the further statements use *)

(** The pair that events are ordered by, and the order on such pairs. *)
Definition event_key (e : Event) : Z * Z := (timestamp e, duration e).

Definition key_pair_le (a b : Z * Z) : Prop :=
  a.1 < b.1 ∨ (a.1 = b.1 ∧ a.2 <= b.2).

(** The period of [o] lies inside the period of [e]. *)
Definition inside (o e : Event) : Prop :=
  timestamp e <= timestamp o
  ∧ timestamp o + duration o <= timestamp e + duration e.

(** The calls that change an in-memory strategy, and a run of them. *)
Inductive memory_call :=
  | CreateBucket (bucket_id type_id client hostname : string) (created : Z)
      (name : option string)
  | DeleteBucket (bucket_id : string)
  | InsertOne (bucket : string) (event : Event)
  | InsertMany (bucket : string) (events : list Event).

Definition memory_step (self : MemoryStorageStrategy.t) (call : memory_call)
  : MemoryStorageStrategy.t :=
  match call with
  | CreateBucket bucket_id type_id client hostname created name =>
      MemoryStorageStrategy.create_bucket self bucket_id type_id client hostname
        created name
  | DeleteBucket bucket_id => (MemoryStorageStrategy.delete_bucket self bucket_id).2
  | InsertOne bucket event => MemoryStorageStrategy.insert_one self bucket event
  | InsertMany bucket events => MemoryStorageStrategy.insert_many self bucket events
  end.

Definition memory_run (self : MemoryStorageStrategy.t) (calls : list memory_call)
  : MemoryStorageStrategy.t :=
  foldl memory_step self calls.

(** The call inserts only into a bucket that has an event log. *)
Definition inserts_into_log (self : MemoryStorageStrategy.t) (call : memory_call)
  : bool :=
  match call with
  | InsertOne bucket _ | InsertMany bucket _ =>
      bool_decide (bucket ∈ dom (MemoryStorageStrategy.db self))
  | _ => true
  end.

Fixpoint insert_into_logs (self : MemoryStorageStrategy.t) (calls : list memory_call)
  : bool :=
  match calls with
  | [] => true
  | call :: calls' =>
      inserts_into_log self call && insert_into_logs (memory_step self call) calls'
  end.

(** One turn of the loop of [buckets]. *)
Definition buckets_step (self : MemoryStorageStrategy.t)
    (buckets : result (gmap string Metadata)) (bucket_id : string)
  : result (gmap string Metadata) :=
  result_bind buckets (λ buckets,
  result_bind (MemoryStorageStrategy.get_metadata self bucket_id) (λ md,
  inr (<[bucket_id := md]> buckets))).

(** The name of the filter is a key of the table [filters]. *)
Definition names_filter (vfilter : Filter) : bool :=
  match f_name vfilter with
  | Some (JStr filtername) =>
      bool_decide (filtername = "exclude_labels")
      || bool_decide (filtername = "include_labels")
      || bool_decide (filtername = "timeperiod_intersect")
  | _ => false
  end.

(** ** Every overlap of two lists of events *)

(** [a] ends no later than [b] starts. *)
Definition ends_by (a b : Event) : Prop :=
  timestamp a + duration a <= timestamp b.

(** The event [e1] cut to the time it shares with [e2], when they share
    more than an instant. *)
Definition overlap (e1 e2 : Event) : option Event :=
  let s := Z.max (timestamp e1) (timestamp e2) in
  let e := Z.min (timestamp e1 + duration e1) (timestamp e2 + duration e2) in
  if s <? e then Some (mkEvent s (e - s) (data e1)) else None.

(** Each event of the first list cut to its overlap with each event of the
    second list that it overlaps, in the order of the lists. *)
Definition overlaps (events filterevents : list Event) : list Event :=
  flat_map (λ e1, omap (overlap e1) filterevents) events.

(** ** An evaluation that comes to a missing bucket *)

Section missing_bucket.
Context `{Transforms ChunkResult EventJson}.

(** The transform is valid: it is evaluated to a list of events. *)
Definition evaluates (ds : Datastore) (limit : Z) (start end_ : option Z)
    (btransform : BucketTransform) : Prop :=
  ∃ events, bucket_transform btransform ds limit start end_ = inr events.

(** The evaluation of the transform comes to a bucket that is not in the
    datastore, all that it evaluates before being valid. Either the
    transform names the missing bucket itself; or its own bucket is there,
    its filters before a [timeperiod_intersect] filter return [events], and
    of the transforms nested in that filter the ones before [nested] are
    valid and [nested] comes to the missing bucket. *)
Inductive reaches_missing_bucket (ds : Datastore) (limit : Z) (start end_ : option Z)
  : BucketTransform → Prop :=
  | reaches_here (btransform : BucketTransform) (bucket : string) :
      bt_bucket btransform = Some (JStr bucket) →
      bucket ∉ dom (ds_buckets ds) →
      reaches_missing_bucket ds limit start end_ btransform
  | reaches_nested (btransform : BucketTransform) (bucket : string)
      (fbefore fafter : list Filter) (tfilter : Filter) (events : list Event)
      (nbefore nafter : list BucketTransform) (nested : BucketTransform) :
      bt_bucket btransform = Some (JStr bucket) →
      bucket ∈ dom (ds_buckets ds) →
      bt_filters btransform = Some (fbefore ++ tfilter :: fafter) →
      apply_each
        (λ vfilter events,
           apply_filter bucket_transform vfilter events ds limit start end_)
        fbefore (ds_get ds bucket limit start end_) = inr events →
      f_name tfilter = Some (JStr "timeperiod_intersect") →
      f_transforms tfilter = Some (nbefore ++ nested :: nafter) →
      Forall (evaluates ds limit start end_) nbefore →
      reaches_missing_bucket ds limit start end_ nested →
      reaches_missing_bucket ds limit start end_ btransform.

End missing_bucket.

(** ** The periods of a list of events as sets of instants *)

(** The instant [t] lies in the period of some event of the list. The
    instants are rational, so that those between two whole ones count. *)
Definition covers (events : list Event) (t : Q) : Prop :=
  ∃ e, e ∈ events
       ∧ (inject_Z (timestamp e) <= t <= inject_Z (timestamp e + duration e))%Q.

(** The loop of [period_union] on the events as they come out of the sort. *)
Definition merge (events : list Event) : list Event :=
  match events with
  | [] => []
  | first :: events' => merge_from first events'
  end.



(** ** The sweep over any intersection of periods *)

(** [TimePeriod.intersection] is not among the sources. This is the loop of
    [_intersecting_eventpairs] again, with the intersection it calls left
    open. *)
Equations? sweep_with (intersection : TimePeriod.t → TimePeriod.t → option TimePeriod.t)
    (events1 events2 : list Event) (e1_i e2_i : nat) : list sweep_output
  by wf ((length events1 - e1_i) + (length events2 - e2_i))%nat lt :=
  sweep_with intersection events1 events2 e1_i e2_i
    with inspect (events1 !! e1_i) => {
    | exist _ None _ => [];
    | exist _ (Some e1) H1 with inspect (events2 !! e2_i) => {
      | exist _ None _ => [];
      | exist _ (Some e2) H2 =>
          let e1_p := _get_event_period e1 in
          let e2_p := _get_event_period e2 in
          match intersection e1_p e2_p with
          | Some ip =>
              Yield e1 e2 ip ::
              (if TimePeriod.end_ e1_p <=? TimePeriod.end_ e2_p
               then sweep_with intersection events1 events2 (e1_i + 1) e2_i
               else sweep_with intersection events1 events2 e1_i (e2_i + 1))
          | None =>
              if TimePeriod.end_ e1_p <=? TimePeriod.start e2_p
              then sweep_with intersection events1 events2 (e1_i + 1) e2_i
              else if TimePeriod.end_ e2_p <=? TimePeriod.start e1_p
              then sweep_with intersection events1 events2 e1_i (e2_i + 1)
              else LogError unreachable_msg ::
                   sweep_with intersection events1 events2 (e1_i + 1) (e2_i + 1)
          end } }.
Proof.
  all: apply lookup_lt_Some in H1; apply lookup_lt_Some in H2; lia.
Qed.



(** * Tactics *)

(** Case analysis on the comparisons of the goal. *)
Ltac split_leb :=
  repeat match goal with
         | |- context [?a <=? ?b] => destruct (Z.leb_spec a b)
         | |- context [?a <? ?b] => destruct (Z.ltb_spec a b)
         end.

(** * Properties *)

(** ** The sweep, read on the remainders of the two lists *)

Lemma sweep_eq (events1 events2 : list Event) (e1_i e2_i : nat) :
  sweep events1 events2 e1_i e2_i =
  match events1 !! e1_i, events2 !! e2_i with
  | Some e1, Some e2 =>
      match sweep_turn e1 e2 with
      | (out, true, false) => out ++ sweep events1 events2 (e1_i + 1) e2_i
      | (out, false, true) => out ++ sweep events1 events2 e1_i (e2_i + 1)
      | (out, _, _) => out ++ sweep events1 events2 (e1_i + 1) (e2_i + 1)
      end
  | _, _ => []
  end.
Proof.
  funelim (sweep events1 events2 e1_i e2_i).
  - rewrite e. reflexivity.
  - rewrite H1, H2. unfold sweep_turn. cbv zeta.
    destruct (TimePeriod.intersection _ _);
      repeat match goal with |- context [?a <=? ?b] => destruct (a <=? b) end;
      reflexivity.
  - rewrite H1, e. reflexivity.
Qed.

Lemma sweep_rest_nil_l (l2 : list Event) : sweep_rest [] l2 = [].
Proof. destruct l2; reflexivity. Qed.

Lemma sweep_rest_nil_r (l1 : list Event) : sweep_rest l1 [] = [].
Proof. destruct l1; reflexivity. Qed.

Lemma sweep_rest_cons (e1 e2 : Event) (l1 l2 : list Event) :
  sweep_rest (e1 :: l1) (e2 :: l2) =
  match sweep_turn e1 e2 with
  | (out, true, false) => out ++ sweep_rest l1 (e2 :: l2)
  | (out, false, true) => out ++ sweep_rest (e1 :: l1) l2
  | (out, _, _) => out ++ sweep_rest l1 l2
  end.
Proof. reflexivity. Qed.

Lemma sweep_drop_le (events1 events2 : list Event) (n : nat) :
  ∀ e1_i e2_i : nat,
    ((length events1 - e1_i) + (length events2 - e2_i) ≤ n)%nat →
    sweep events1 events2 e1_i e2_i = sweep_rest (drop e1_i events1) (drop e2_i events2).
Proof.
  induction n as [|n IH]; intros e1_i e2_i Hn; rewrite sweep_eq.
  - destruct (events1 !! e1_i) as [e1|] eqn:H1.
    + destruct (events2 !! e2_i) as [e2|] eqn:H2.
      * apply lookup_lt_Some in H1, H2. lia.
      * apply lookup_ge_None in H2. rewrite (drop_ge events2 e2_i H2).
        by rewrite sweep_rest_nil_r.
    + apply lookup_ge_None in H1.
      by rewrite (drop_ge events1 e1_i H1), sweep_rest_nil_l.
  - destruct (events1 !! e1_i) as [e1|] eqn:H1.
    + destruct (events2 !! e2_i) as [e2|] eqn:H2.
      * pose proof (lookup_lt_Some _ _ _ H1). pose proof (lookup_lt_Some _ _ _ H2).
        rewrite (drop_S _ _ _ H1), (drop_S _ _ _ H2), sweep_rest_cons.
        rewrite <- (drop_S _ _ _ H1), <- (drop_S _ _ _ H2).
        replace (S e1_i) with (e1_i + 1)%nat by lia.
        replace (S e2_i) with (e2_i + 1)%nat by lia.
        destruct (sweep_turn e1 e2) as [[out [] ] [] ]; f_equal; apply IH; lia.
      * apply lookup_ge_None in H2. rewrite (drop_ge events2 e2_i H2).
        by rewrite sweep_rest_nil_r.
    + apply lookup_ge_None in H1.
      by rewrite (drop_ge events1 e1_i H1), sweep_rest_nil_l.
Qed.

(** The loop started at the two heads is the sweep over the whole lists. *)
Lemma sweep_whole (events1 events2 : list Event) :
  sweep events1 events2 0 0 = sweep_rest events1 events2.
Proof. by rewrite (sweep_drop_le events1 events2 _ 0 0 (le_n _)). Qed.

(** ** The order of events and [sorted] *)

Lemma Event_lt_false (a b : Event) : Event_lt b a = false ↔ key_le a b.
Proof. unfold Event_lt, key_le. lia. Qed.

Lemma Event_lt_true (a b : Event) : Event_lt a b = true → key_le a b.
Proof. unfold Event_lt, key_le. lia. Qed.

Lemma key_le_trans (a b c : Event) : key_le a b → key_le b c → key_le a c.
Proof. unfold key_le. lia. Qed.

Lemma key_le_timestamp (a b : Event) : key_le a b → timestamp a <= timestamp b.
Proof. unfold key_le. lia. Qed.

Lemma key_le_timestamps (l : list Event) :
  StronglySorted key_le l → StronglySorted timestamp_le l.
Proof.
  induction 1 as [|x l Hs IH Hall]; constructor; [done|].
  eapply Forall_impl; [exact Hall|]. intros y. apply key_le_timestamp.
Qed.

Lemma sorted_insert_perm (x : Event) (l : list Event) : sorted_insert x l ≡ₚ x :: l.
Proof.
  induction l as [|y l IH]; simpl; [done|].
  destruct (Event_lt y x); [|done].
  rewrite IH. apply perm_swap.
Qed.

Lemma sorted_perm (l : list Event) : sorted l ≡ₚ l.
Proof.
  induction l as [|x l IH]; simpl; [done|].
  by rewrite sorted_insert_perm, IH.
Qed.

Lemma elem_of_sorted (e : Event) (l : list Event) : e ∈ sorted l ↔ e ∈ l.
Proof. by rewrite sorted_perm. Qed.

Lemma sorted_insert_ascending (x : Event) (l : list Event) :
  StronglySorted key_le l → StronglySorted key_le (sorted_insert x l).
Proof.
  induction 1 as [|y l Hl IH Hy]; simpl.
  - repeat constructor.
  - destruct (Event_lt y x) eqn:Hyx.
    + constructor; [done|].
      rewrite sorted_insert_perm. constructor; [|done].
      by apply Event_lt_true.
    + apply Event_lt_false in Hyx.
      constructor; [by constructor|].
      constructor; [done|].
      eapply Forall_impl; [exact Hy|]. intros z Hz. by eapply key_le_trans.
Qed.

Lemma sorted_ascending (l : list Event) : StronglySorted key_le (sorted l).
Proof.
  induction l as [|x l IH]; simpl; [constructor|].
  by apply sorted_insert_ascending.
Qed.

(** ** What the sweep yields *)

Lemma gap_no_intersection (a b : TimePeriod.t) :
  TimePeriod.gap a b = true → TimePeriod.intersection a b = None.
Proof.
  unfold TimePeriod.gap, TimePeriod.intersection. intros H.
  cbv zeta. case_match; [done|]. lia.
Qed.

Lemma sweep_turn_yield (e1 e2 a b : Event) (ip : TimePeriod.t) :
  Yield a b ip ∈ (sweep_turn e1 e2).1.1 →
  a = e1 ∧ b = e2 ∧
  TimePeriod.intersection (_get_event_period e1) (_get_event_period e2) = Some ip.
Proof.
  unfold sweep_turn. cbv zeta.
  destruct (TimePeriod.intersection _ _) as [ip'|]; repeat case_match; simpl;
    intros Hin; repeat (apply elem_of_cons in Hin as [Hin|Hin]);
    try (by apply elem_of_nil in Hin); by simplify_eq.
Qed.

(** Whatever the sweep lets out, it lets out in a turn on an event of each
    list. *)
Lemma sweep_rest_elem (l1 l2 : list Event) (o : sweep_output) :
  o ∈ sweep_rest l1 l2 →
  ∃ e1 e2, e1 ∈ l1 ∧ e2 ∈ l2 ∧ o ∈ (sweep_turn e1 e2).1.1.
Proof.
  revert l2. induction l1 as [|e1 l1 IH1]; intros l2.
  { rewrite sweep_rest_nil_l. by intros ?%elem_of_nil. }
  induction l2 as [|e2 l2 IH2].
  { rewrite sweep_rest_nil_r. by intros ?%elem_of_nil. }
  rewrite sweep_rest_cons.
  assert (Hhere : o ∈ (sweep_turn e1 e2).1.1 →
    ∃ a b, a ∈ e1 :: l1 ∧ b ∈ e2 :: l2 ∧ o ∈ (sweep_turn a b).1.1).
  { intros ?. exists e1, e2. split_and!; [left|left|done]. }
  destruct (sweep_turn e1 e2) as [[out m1] m2]; simpl in Hhere.
  destruct m1, m2; intros [?|Hin]%elem_of_app; auto.
  - apply IH1 in Hin as (a & b & ? & ? & ?). exists a, b. split_and!; [by right|by right|done].
  - apply IH1 in Hin as (a & b & ? & ? & ?). exists a, b. split_and!; [by right|done|done].
  - apply IH2 in Hin as (a & b & ? & ? & ?). exists a, b. split_and!; [done|by right|done].
  - apply IH1 in Hin as (a & b & ? & ? & ?). exists a, b. split_and!; [by right|by right|done].
Qed.

Lemma sweep_rest_yield (l1 l2 : list Event) (a b : Event) (ip : TimePeriod.t) :
  Yield a b ip ∈ sweep_rest l1 l2 →
  a ∈ l1 ∧ b ∈ l2 ∧
  TimePeriod.intersection (_get_event_period a) (_get_event_period b) = Some ip.
Proof.
  intros (e1 & e2 & ? & ? & (-> & -> & ?)%sweep_turn_yield)%sweep_rest_elem. done.
Qed.

Lemma elem_of_yields (out : list sweep_output) (a b : Event) (ip : TimePeriod.t) :
  (a, b, ip) ∈ yields out ↔ Yield a b ip ∈ out.
Proof.
  unfold yields. rewrite list_elem_of_omap. split.
  - intros ([ | ] & Hin & Heq); by simplify_eq.
  - intros Hin. by exists (Yield a b ip).
Qed.

Lemma elem_of_clip (out : list sweep_output) (o : Event) :
  o ∈ clip out ↔ ∃ e1 e2 ip, Yield e1 e2 ip ∈ out ∧ o = _replace_event_period e1 ip.
Proof.
  unfold clip. rewrite list_elem_of_In, in_map_iff. split.
  - intros ([[e1 e2] ip] & <- & Hin%list_elem_of_In%elem_of_yields). eauto.
  - intros (e1 & e2 & ip & Hin%elem_of_yields%list_elem_of_In & ->).
    by exists (e1, e2, ip).
Qed.

Lemma clip_app (out1 out2 : list sweep_output) :
  clip (out1 ++ out2) = clip out1 ++ clip out2.
Proof. unfold clip, yields. by rewrite omap_app, map_app. Qed.

Lemma filter_period_intersect_sweep (events filterevents : list Event) :
  filter_period_intersect events filterevents =
  clip (sweep_rest (sorted events) (sorted filterevents)).
Proof.
  unfold filter_period_intersect, _intersecting_eventpairs.
  cbv zeta. by rewrite sweep_whole.
Qed.

(** Every event of the result is an event of the first list, cut to its
    intersection with an event of the second list. *)
Lemma filter_period_intersect_elem (events filterevents : list Event) (o : Event) :
  o ∈ filter_period_intersect events filterevents →
  ∃ e1 e2 ip, e1 ∈ events ∧ e2 ∈ filterevents ∧
    TimePeriod.intersection (_get_event_period e1) (_get_event_period e2) = Some ip ∧
    o = _replace_event_period e1 ip.
Proof.
  rewrite filter_period_intersect_sweep.
  intros (e1 & e2 & ip & (H1 & H2 & Hip)%sweep_rest_yield & ->)%elem_of_clip.
  exists e1, e2, ip. by rewrite elem_of_sorted in H1, H2.
Qed.

(** What [filter_period_intersect] returns is sound: on [(t=0,d=10)]
    against [(t=5,d=10)] it returns exactly [(t=5,d=5)] with the data of the
    first; every event it returns is an event of the first list with its
    period replaced by its intersection with an event of the second; and on
    two lists whose periods are pairwise neither overlapping nor touching it
    returns the empty list. *)
Lemma filter_period_intersect_clips (events filterevents : list Event) :
  (∀ d1 d2 : gmap string string,
     filter_period_intersect [mkEvent 0 10 d1] [mkEvent 5 10 d2] = [mkEvent 5 5 d1])
  ∧ (∀ o, o ∈ filter_period_intersect events filterevents →
       ∃ e1 e2 ip, e1 ∈ events ∧ e2 ∈ filterevents ∧
         TimePeriod.intersection (_get_event_period e1) (_get_event_period e2) = Some ip ∧
         timestamp o = TimePeriod.start ip ∧
         duration o = TimePeriod.duration ip ∧
         data o = data e1)
  ∧ (pairwise_gap events filterevents →
     filter_period_intersect events filterevents = []).
Proof.
  split_and!.
  - intros d1 d2. by rewrite filter_period_intersect_sweep.
  - intros o (e1 & e2 & ip & ? & ? & ? & ->)%filter_period_intersect_elem.
    by exists e1, e2, ip.
  - intros Hgap.
    destruct (filter_period_intersect events filterevents) as [|o l] eqn:Hres; [done|].
    assert (Ho : o ∈ filter_period_intersect events filterevents)
      by (rewrite Hres; left).
    apply filter_period_intersect_elem in Ho as (e1 & e2 & ip & H1 & H2 & Hip & _).
    by rewrite (gap_no_intersection _ _ (Hgap e1 e2 H1 H2)) in Hip.
Qed.

(** C1. [filter_period_intersect] does not cut each event of the first
    list to its overlap with the second list. Of the events [(t=0,d=10)] and
    [(t=2,d=1)] against the filter event [(t=2,d=5)] it returns [(t=2,d=5)]
    with the data of the first event alone: the sweep moves on from the
    filter event, which ends first, and never compares it with [(t=2,d=1)],
    although the two overlap in [2,3] and [(t=2,d=1)] on its own is
    returned whole. *)
Theorem filter_period_intersect_misses_overlap (dA dB dF : gmap string string) :
  let events := [mkEvent 0 10 dA; mkEvent 2 1 dB] in
  let filterevents := [mkEvent 2 5 dF] in
  sorted events = events
  ∧ TimePeriod.intersection (_get_event_period (mkEvent 2 1 dB))
      (_get_event_period (mkEvent 2 5 dF)) = Some (TimePeriod.mk 2 3)
  ∧ filter_period_intersect [mkEvent 2 1 dB] filterevents = [mkEvent 2 1 dB]
  ∧ filter_period_intersect [mkEvent 0 10 dA] filterevents = [mkEvent 2 5 dA]
  ∧ filter_period_intersect events filterevents = [mkEvent 2 5 dA]
  ∧ _intersecting_eventpairs events filterevents
    = [(mkEvent 0 10 dA, mkEvent 2 5 dF, TimePeriod.mk 2 7)]
  ∧ logged (sweep events filterevents 0 0) = [].
Proof.
  cbv zeta. unfold _intersecting_eventpairs.
  rewrite !filter_period_intersect_sweep, !sweep_whole.
  split_and!; reflexivity.
Qed.

(** ** The branch that "should be unreachable" *)

(** A turn on two events writes to the error log exactly when one of them
    has a zero (or negative) duration and starts and ends strictly inside
    a period of the other. *)
Lemma sweep_turn_logs (e1 e2 : Event) :
  LogError unreachable_msg ∈ (sweep_turn e1 e2).1.1 ↔
  (duration e1 <= 0 ∧ timestamp e2 < timestamp e1 + duration e1
     ∧ timestamp e1 < timestamp e2 + duration e2)
  ∨ (duration e2 <= 0 ∧ timestamp e1 < timestamp e2 + duration e2
     ∧ timestamp e2 < timestamp e1 + duration e1).
Proof.
  unfold sweep_turn, TimePeriod.intersection, _get_event_period. cbn.
  split_leb; simpl; rewrite ?elem_of_cons, ?elem_of_nil;
    intuition (try lia; try discriminate).
Qed.

(** On events that all last for some time, the sweep never takes the
    branch, whatever the order of the lists. *)
Lemma sweep_positive_durations_no_log (events1 events2 : list Event) :
  Forall (λ e, 0 < duration e) events1 →
  Forall (λ e, 0 < duration e) events2 →
  logged (sweep events1 events2 0 0) = [].
Proof.
  rewrite !Forall_forall. intros Hpos1 Hpos2. rewrite sweep_whole.
  destruct (logged _) as [|msg l] eqn:Hlog; [done|].
  assert (Hin : msg ∈ logged (sweep_rest events1 events2)) by (rewrite Hlog; left).
  unfold logged in Hin. apply list_elem_of_omap in Hin as (o & Hin & Ho).
  apply sweep_rest_elem in Hin as (e1 & e2 & H1 & H2 & Hturn).
  destruct o as [|msg']; [done|]. simplify_eq.
  assert (msg = unreachable_msg) as ->.
  { revert Hturn. unfold sweep_turn. cbv zeta.
    destruct (TimePeriod.intersection _ _); split_leb;
      simpl; rewrite ?elem_of_cons, ?elem_of_nil;
      intuition (try discriminate; congruence). }
  apply sweep_turn_logs in Hturn.
  specialize (Hpos1 e1 H1). specialize (Hpos2 e2 H2). simpl in *. lia.
Qed.

(** With the rule of section 4.1 for the intersection, taken to the letter,
    the sweep does reach the branch: an event of zero duration that lies
    strictly inside a period of the other list neither intersects it nor
    lies before or after it. Both pointers are then moved, and the event
    that follows in the first list and overlaps the same period of the
    second is lost. *)
Lemma sweep_reaches_unreachable_branch :
  let events1 := [mkEvent 5 0 ∅; mkEvent 6 2 ∅] in
  let events2 := [mkEvent 0 10 ∅] in
  StronglySorted key_le events1 ∧ StronglySorted key_le events2
  ∧ Forall (λ e, 0 <= duration e) (events1 ++ events2)
  ∧ sorted events1 = events1 ∧ sorted events2 = events2
  ∧ logged (sweep events1 events2 0 0) = [unreachable_msg]
  ∧ logged (sweep [mkEvent 5 0 ∅] events2 0 0) = [unreachable_msg]
  ∧ filter_period_intersect events1 events2 = []
  ∧ filter_period_intersect [mkEvent 6 2 ∅] events2 = [mkEvent 6 2 ∅].
Proof.
  cbv zeta. split_and!.
  - repeat constructor; unfold key_le; simpl; lia.
  - repeat constructor.
  - repeat constructor; simpl; lia.
  - reflexivity.
  - reflexivity.
  - by rewrite sweep_whole.
  - by rewrite sweep_whole.
  - by rewrite filter_period_intersect_sweep.
  - by rewrite filter_period_intersect_sweep.
Qed.

(** With the rule of section 4.1 for the intersection, [sweep_with] is the
    loop as modelled above. *)
Lemma sweep_with_spec_rule (events1 events2 : list Event) (e1_i e2_i : nat) :
  sweep_with TimePeriod.intersection events1 events2 e1_i e2_i
  = sweep events1 events2 e1_i e2_i.
Proof.
  funelim (sweep_with TimePeriod.intersection events1 events2 e1_i e2_i).
  - rewrite sweep_eq, e. reflexivity.
  - rewrite (sweep_eq events1 events2 e1_i e2_i), H1, H2.
    unfold sweep_turn. cbv zeta.
    destruct (TimePeriod.intersection _ _);
      repeat match goal with |- context [?a <=? ?b] => destruct (a <=? b) end;
      simpl; congruence.
  - rewrite sweep_eq, H1, e. reflexivity.
Qed.





(** ** The order of the results *)

Lemma intersection_start (a b ip : TimePeriod.t) :
  TimePeriod.intersection a b = Some ip →
  TimePeriod.start ip = Z.max (TimePeriod.start a) (TimePeriod.start b).
Proof.
  unfold TimePeriod.intersection. cbv zeta.
  destruct (_ <=? _); [done|]. by intros [= <-].
Qed.

(** A turn lets at most one event into the result, and that event starts
    where the later of the two events starts. *)
Lemma clip_sweep_turn (e1 e2 : Event) :
  clip (sweep_turn e1 e2).1.1 = []
  ∨ ∃ o, clip (sweep_turn e1 e2).1.1 = [o]
         ∧ timestamp o = Z.max (timestamp e1) (timestamp e2).
Proof.
  unfold sweep_turn. cbv zeta.
  destruct (TimePeriod.intersection _ _) as [ip|] eqn:Hip.
  - apply intersection_start in Hip.
    right. exists (_replace_event_period e1 ip).
    split; [by split_leb|done].
  - left. by split_leb.
Qed.

Lemma clip_sweep_rest_timestamp (l1 l2 : list Event) (o : Event) :
  o ∈ clip (sweep_rest l1 l2) →
  ∃ e1 e2, e1 ∈ l1 ∧ e2 ∈ l2 ∧ timestamp o = Z.max (timestamp e1) (timestamp e2).
Proof.
  intros (e1 & e2 & ip & (H1 & H2 & Hip)%sweep_rest_yield & ->)%elem_of_clip.
  exists e1, e2. split_and!; [done..|]. by apply intersection_start in Hip.
Qed.

Lemma timestamp_le_head (e : Event) (l : list Event) (x : Event) :
  StronglySorted timestamp_le (e :: l) → x ∈ e :: l → timestamp e <= timestamp x.
Proof.
  intros Hs [->|Hin]%elem_of_cons; [lia|].
  apply StronglySorted_inv in Hs as [_ Hall].
  rewrite Forall_forall in Hall. by apply Hall.
Qed.

Lemma sweep_rest_timestamps (l1 l2 : list Event) :
  StronglySorted timestamp_le l1 → StronglySorted timestamp_le l2 →
  StronglySorted timestamp_le (clip (sweep_rest l1 l2)).
Proof.
  intros H1. revert l2. induction H1 as [|e1 l1 Hs1 IH1 Hall1]; intros l2 H2.
  { rewrite sweep_rest_nil_l. constructor. }
  induction H2 as [|e2 l2 Hs2 IH2 Hall2].
  { rewrite sweep_rest_nil_r. constructor. }
  assert (Hs1' : StronglySorted timestamp_le (e1 :: l1)) by by constructor.
  assert (Hs2' : StronglySorted timestamp_le (e2 :: l2)) by by constructor.
  assert (Hbound : ∀ l1' l2', l1' ⊆ e1 :: l1 → l2' ⊆ e2 :: l2 →
    Forall (λ o, Z.max (timestamp e1) (timestamp e2) <= timestamp o)
      (clip (sweep_rest l1' l2'))).
  { intros l1' l2' Hsub1 Hsub2. apply Forall_forall.
    intros o (a & b & Ha%Hsub1 & Hb%Hsub2 & ->)%clip_sweep_rest_timestamp.
    pose proof (timestamp_le_head _ _ _ Hs1' Ha).
    pose proof (timestamp_le_head _ _ _ Hs2' Hb). lia. }
  assert (Hpre : ∀ l1' l2', l1' ⊆ e1 :: l1 → l2' ⊆ e2 :: l2 →
    StronglySorted timestamp_le (clip (sweep_rest l1' l2')) →
    StronglySorted timestamp_le
      (clip (sweep_turn e1 e2).1.1 ++ clip (sweep_rest l1' l2'))).
  { intros l1' l2' Hsub1 Hsub2 Hrest.
    destruct (clip_sweep_turn e1 e2) as [->|(o & -> & Ho)]; [done|].
    simpl. constructor; [done|].
    eapply Forall_impl; [by apply Hbound|].
    intros x Hx. unfold timestamp_le. simpl in Hx. lia. }
  rewrite sweep_rest_cons.
  destruct (sweep_turn e1 e2) as [[out m1] m2]; simpl in Hpre.
  destruct m1, m2; rewrite clip_app.
  - apply Hpre; [set_solver..|]. by apply IH1.
  - apply Hpre; [set_solver..|]. by apply IH1.
  - apply Hpre; [set_solver..|]. done.
  - apply Hpre; [set_solver..|]. by apply IH1.
Qed.

Lemma key_le_timestamp_sorted (l : list Event) :
  StronglySorted key_le l → StronglySorted timestamp_le l.
Proof.
  induction 1 as [|e l Hs IH Hall]; constructor; [done|].
  eapply Forall_impl; [exact Hall|]. intros x. apply key_le_timestamp.
Qed.

Lemma filter_period_intersect_timestamps (events filterevents : list Event) :
  StronglySorted timestamp_le (filter_period_intersect events filterevents).
Proof.
  rewrite filter_period_intersect_sweep.
  apply sweep_rest_timestamps; apply key_le_timestamp_sorted, sorted_ascending.
Qed.

(** ** [period_union] as the merge of a sorted list *)

Lemma merge_from_cons (last_event e : Event) (events : list Event) :
  merge_from last_event (e :: events) =
  if TimePeriod.gap (_get_event_period e) (_get_event_period last_event)
  then last_event :: merge_from e events
  else merge_from (absorb last_event e) events.
Proof. simpl. by destruct (TimePeriod.gap _ _). Qed.

Lemma period_union_fold (events init : list Event) (last_event : Event) :
  (let '(init', last') := fold_left period_union_step events (init, last_event) in
   init' ++ [last'])
  = init ++ merge_from last_event events.
Proof.
  revert init last_event. induction events as [|e events IH]; intros init last_event.
  { done. }
  rewrite merge_from_cons. cbn [fold_left]. unfold period_union_step at 2.
  destruct (TimePeriod.gap _ _); simpl negb; cbv iota.
  - rewrite IH. by rewrite <- app_assoc.
  - by rewrite IH.
Qed.

Lemma period_union_merge (events1 events2 : list Event) :
  period_union events1 events2 =
  match sorted (events1 ++ events2) with
  | [] => []
  | first :: events => merge_from first events
  end.
Proof.
  unfold period_union. destruct (sorted _) as [|first events]; [done|].
  exact (period_union_fold events [] first).
Qed.

Lemma key_le_refl (a : Event) : key_le a a.
Proof. unfold key_le. lia. Qed.

Lemma key_le_absorb (last_event e : Event) :
  key_le last_event e → key_le last_event (absorb last_event e).
Proof. unfold key_le, absorb. simpl. unfold TimePeriod.duration. simpl. lia. Qed.

Lemma absorb_key_le (last_event e x : Event) :
  key_le last_event e → key_le last_event x → key_le e x →
  key_le (absorb last_event e) x.
Proof. unfold key_le, absorb. simpl. unfold TimePeriod.duration. simpl. lia. Qed.

(** The merged events are ascending, and none comes before the event the
    merge starts from. *)
Lemma merge_from_ascending (events : list Event) :
  ∀ last_event,
    StronglySorted key_le (last_event :: events) →
    StronglySorted key_le (merge_from last_event events)
    ∧ Forall (key_le last_event) (merge_from last_event events).
Proof.
  induction events as [|e events IH]; intros last_event Hs.
  { simpl. split.
    - constructor; constructor.
    - constructor; [apply key_le_refl|constructor]. }
  apply StronglySorted_inv in Hs as [Hs Hall].
  pose proof Hs as [Hs' Hall']%StronglySorted_inv.
  pose proof Hall as [Hle Hall'']%Forall_cons.
  rewrite merge_from_cons. destruct (TimePeriod.gap _ _).
  - destruct (IH e Hs) as [IHs IHall].
    assert (Forall (key_le last_event) (merge_from e events)).
    { eapply Forall_impl; [exact IHall|]. intros x. by apply key_le_trans. }
    split; constructor; auto using key_le_refl.
  - destruct (IH (absorb last_event e)) as [IHs IHall].
    { constructor; [done|].
      rewrite Forall_forall in Hall', Hall''. apply Forall_forall. intros x Hx.
      apply absorb_key_le; auto. }
    split; [done|].
    eapply Forall_impl; [exact IHall|]. intros x.
    apply key_le_trans. by apply key_le_absorb.
Qed.

Lemma period_union_ascending (events1 events2 : list Event) :
  StronglySorted key_le (period_union events1 events2).
Proof.
  rewrite period_union_merge.
  pose proof (sorted_ascending (events1 ++ events2)) as Hs.
  destruct (sorted _) as [|first events]; [constructor|].
  by apply merge_from_ascending.
Qed.

(** [filter_period_intersect] does not return its events ascending by
    [(timestamp, duration)] where an event of the first list lies inside
    another one: both are cut to the same start, the longer first. *)
Lemma filter_period_intersect_not_ascending :
  filter_period_intersect [mkEvent 0 10 ∅; mkEvent 2 1 ∅] [mkEvent 2 20 ∅]
    = [mkEvent 2 8 ∅; mkEvent 2 1 ∅]
  ∧ ¬ StronglySorted key_le
        (filter_period_intersect [mkEvent 0 10 ∅; mkEvent 2 1 ∅] [mkEvent 2 20 ∅]).
Proof.
  assert (Heq : filter_period_intersect [mkEvent 0 10 ∅; mkEvent 2 1 ∅] [mkEvent 2 20 ∅]
                = [mkEvent 2 8 ∅; mkEvent 2 1 ∅])
    by by rewrite filter_period_intersect_sweep.
  split; [done|]. rewrite Heq.
  intros [_ [Hle _]%Forall_cons]%StronglySorted_inv.
  unfold key_le in Hle. simpl in Hle. lia.
Qed.

(** C5, amended. For any input event lists, the output of
    [filter_period_intersect] is non-decreasing by timestamp, and the output
    of [period_union] is non-decreasing by [(timestamp, duration)]. *)
Theorem results_ascending (events filterevents events1 events2 : list Event) :
  StronglySorted timestamp_le (filter_period_intersect events filterevents)
  ∧ StronglySorted key_le (period_union events1 events2).
Proof.
  split.
  - apply filter_period_intersect_timestamps.
  - apply period_union_ascending.
Qed.

(** ** [period_union] covers what its arguments cover *)

Lemma absorb_sorted (last_event e : Event) (events : list Event) :
  StronglySorted key_le (last_event :: e :: events) →
  StronglySorted key_le (absorb last_event e :: events).
Proof.
  intros [[Hs Hall']%StronglySorted_inv [Hle Hall]%Forall_cons]%StronglySorted_inv.
  constructor; [done|].
  rewrite Forall_forall in Hall, Hall'. apply Forall_forall. intros x Hx.
  apply absorb_key_le; auto.
Qed.

Lemma absorb_duration (last_event e : Event) :
  duration last_event <= duration (absorb last_event e).
Proof. unfold absorb. simpl. unfold TimePeriod.duration. simpl. lia. Qed.

(** A list that is ascending already is what [sorted] returns. *)
Lemma sorted_id (l : list Event) : StronglySorted key_le l → sorted l = l.
Proof.
  induction 1 as [|x l Hs IH Hall]; [done|].
  simpl. rewrite IH. destruct l as [|y l]; [done|].
  simpl. apply Forall_cons in Hall as [Hxy _].
  apply Event_lt_false in Hxy. by rewrite Hxy.
Qed.

Lemma ends_before_key_le (l : list Event) :
  Forall (λ e, 0 <= duration e) l →
  StronglySorted ends_before l → StronglySorted key_le l.
Proof.
  intros Hd Hs. induction Hs as [|x l Hs IH Hall]; [constructor|].
  apply Forall_cons in Hd as [Hx Hd]. constructor; [auto|].
  eapply Forall_impl; [exact Hall|].
  intros y. unfold ends_before, key_le. lia.
Qed.

Lemma merge_from_durations (events : list Event) :
  ∀ last_event,
    Forall (λ e, 0 <= duration e) (last_event :: events) →
    Forall (λ e, 0 <= duration e) (merge_from last_event events).
Proof.
  induction events as [|e events IH]; intros last_event Hd; [done|].
  pose proof Hd as [Hdl [Hde Hd']%Forall_cons]%Forall_cons.
  rewrite merge_from_cons. destruct (TimePeriod.gap _ _).
  - constructor; [done|]. apply IH. by constructor.
  - apply IH. constructor; [|done].
    pose proof (absorb_duration last_event e). lia.
Qed.

Lemma merge_from_separated (events : list Event) :
  ∀ last_event,
    StronglySorted ends_before (last_event :: events) →
    Forall (λ e, 0 <= duration e) (last_event :: events) →
    merge_from last_event events = last_event :: events.
Proof.
  induction events as [|e events IH]; intros last_event Hs Hd; [done|].
  apply StronglySorted_inv in Hs as [Hs [Hle _]%Forall_cons].
  apply Forall_cons in Hd as [Hdl Hd].
  rewrite merge_from_cons.
  assert (TimePeriod.gap (_get_event_period e) (_get_event_period last_event) = true)
    as ->.
  { revert Hle. unfold ends_before, TimePeriod.gap, _get_event_period. simpl. lia. }
  f_equal. by apply IH.
Qed.

Lemma covers_cons (e : Event) (events : list Event) (t : Q) :
  covers (e :: events) t ↔
  (inject_Z (timestamp e) <= t <= inject_Z (timestamp e + duration e))%Q
  ∨ covers events t.
Proof.
  unfold covers. split.
  - intros (x & [->|Hin]%elem_of_cons & Ht); [by left|right; eauto].
  - intros [Ht|(x & Hin & Ht)].
    + exists e. split; [left|done].
    + exists x. split; [by right|done].
Qed.

Lemma covers_perm (l1 l2 : list Event) (t : Q) :
  l1 ≡ₚ l2 → covers l1 t ↔ covers l2 t.
Proof. intros Hp. unfold covers. by setoid_rewrite Hp. Qed.

(** Two periods that no gap separates cover, between them, the instants
    from the earlier start to the later end. *)
Lemma hull_instants (a b c d : Z) (t : Q) :
  a <= b → c <= d → ¬ (b < c) → ¬ (d < a) →
  (inject_Z (Z.min a c) <= t <= inject_Z (Z.max b d))%Q
  ↔ (inject_Z a <= t <= inject_Z b)%Q ∨ (inject_Z c <= t <= inject_Z d)%Q.
Proof.
  intros Hab Hcd Hbc Hda.
  assert (Hbc' : c <= b) by lia. assert (Hda' : a <= d) by lia.
  rewrite Zle_Qle in Hab, Hcd, Hbc', Hda'.
  destruct (Z.min_spec a c) as [[Hm ->]|[Hm ->]],
           (Z.max_spec b d) as [[HM ->]|[HM ->]];
    (apply Z.lt_le_incl in Hm || idtac); (apply Z.lt_le_incl in HM || idtac);
    rewrite Zle_Qle in Hm, HM;
    destruct (Qlt_le_dec t (inject_Z c)), (Qlt_le_dec t (inject_Z a)),
             (Qlt_le_dec (inject_Z b) t), (Qlt_le_dec (inject_Z d) t); lra.
Qed.

Lemma absorb_period (last_event e : Event) :
  timestamp (absorb last_event e) = Z.min (timestamp e) (timestamp last_event)
  ∧ timestamp (absorb last_event e) + duration (absorb last_event e)
    = Z.max (timestamp e + duration e) (timestamp last_event + duration last_event).
Proof. unfold absorb. simpl. unfold TimePeriod.duration. simpl. lia. Qed.

Lemma absorb_covers_instants (last_event e : Event) (t : Q) :
  0 <= duration last_event → 0 <= duration e →
  TimePeriod.gap (_get_event_period e) (_get_event_period last_event) = false →
  (inject_Z (timestamp (absorb last_event e)) <= t
     <= inject_Z (timestamp (absorb last_event e) + duration (absorb last_event e)))%Q
  ↔ (inject_Z (timestamp last_event) <= t
       <= inject_Z (timestamp last_event + duration last_event))%Q
    ∨ (inject_Z (timestamp e) <= t <= inject_Z (timestamp e + duration e))%Q.
Proof.
  intros Hdl Hde Hgap.
  destruct (absorb_period last_event e) as [-> ->].
  rewrite hull_instants; [tauto|lia..| |];
    revert Hgap; unfold TimePeriod.gap; simpl; lia.
Qed.

Lemma merge_from_timestamps (events : list Event) :
  ∀ last_event,
    StronglySorted timestamp_le (last_event :: events) →
    Forall (timestamp_le last_event) (merge_from last_event events).
Proof.
  induction events as [|e events IH]; intros last_event Hs.
  { repeat constructor. unfold timestamp_le. lia. }
  apply StronglySorted_inv in Hs as [Hs Hall].
  pose proof Hs as [Hs' Hall']%StronglySorted_inv.
  pose proof Hall as [Hle Hall'']%Forall_cons.
  rewrite merge_from_cons. destruct (TimePeriod.gap _ _).
  - constructor; [unfold timestamp_le; lia|].
    eapply Forall_impl; [exact (IH e Hs)|].
    intros x. unfold timestamp_le in *. lia.
  - assert (Hts : timestamp (absorb last_event e) = timestamp last_event).
    { destruct (absorb_period last_event e) as [-> _]. unfold timestamp_le in Hle. lia. }
    eapply Forall_impl; [apply IH|].
    + constructor; [done|]. eapply Forall_impl; [exact Hall''|].
      intros x. unfold timestamp_le. lia.
    + intros x. unfold timestamp_le. lia.
Qed.

(** The loop of [period_union], on events that are ascending by timestamp
    in whatever order those that start together come: each merged event
    ends before the next starts, and the merged events cover the instants
    that the events cover. *)
Lemma merge_from_covers (events : list Event) :
  ∀ last_event,
    StronglySorted timestamp_le (last_event :: events) →
    Forall (λ e, 0 <= duration e) (last_event :: events) →
    StronglySorted ends_before (merge_from last_event events)
    ∧ ∀ t, covers (merge_from last_event events) t ↔ covers (last_event :: events) t.
Proof.
  induction events as [|e events IH]; intros last_event Hs Hd.
  { simpl. split; [constructor; constructor|done]. }
  pose proof Hs as [Hs' [Hle Hall]%Forall_cons]%StronglySorted_inv.
  pose proof Hd as [Hdl [Hde Hd']%Forall_cons]%Forall_cons.
  rewrite merge_from_cons.
  destruct (TimePeriod.gap _ _) eqn:Hgap.
  - destruct (IH e Hs') as [IHs IHc]; [by constructor|].
    split.
    + constructor; [done|].
      eapply Forall_impl; [exact (merge_from_timestamps events e Hs')|].
      intros x Hx.
      revert Hgap Hle Hx. unfold TimePeriod.gap, timestamp_le, ends_before. simpl. lia.
    + intros t. rewrite covers_cons, IHc, <- covers_cons. done.
  - destruct (IH (absorb last_event e)) as [IHs IHc].
    { assert (Hts : timestamp (absorb last_event e) = timestamp last_event).
      { destruct (absorb_period last_event e) as [-> _]. unfold timestamp_le in Hle. lia. }
      apply StronglySorted_inv in Hs' as [Hs' _].
      constructor; [done|]. eapply Forall_impl; [exact Hall|].
      intros x. unfold timestamp_le. lia. }
    { constructor; [|done]. pose proof (absorb_duration last_event e). lia. }
    split; [done|].
    intros t. rewrite IHc, !covers_cons, absorb_covers_instants by done. tauto.
Qed.

Lemma period_union_merge_sorted (events1 events2 : list Event) :
  period_union events1 events2 = merge (sorted (events1 ++ events2)).
Proof. apply period_union_merge. Qed.

(** Of two events, [period_union] makes one event from the earlier start to
    the later end when no gap separates them, and leaves the two as they
    are, the earlier first, when one does. *)
Lemma period_union_pair (a b : Event) :
  0 <= duration a → 0 <= duration b →
  if TimePeriod.gap (_get_event_period a) (_get_event_period b)
  then period_union [a] [b] = (if timestamp a <? timestamp b then [a; b] else [b; a])
  else ∃ o, period_union [a] [b] = [o]
            ∧ timestamp o = Z.min (timestamp a) (timestamp b)
            ∧ timestamp o + duration o
              = Z.max (timestamp a + duration a) (timestamp b + duration b).
Proof.
  intros Hda Hdb. rewrite period_union_merge. simpl.
  destruct (Event_lt b a) eqn:Hlt; simpl;
    unfold TimePeriod.gap, Event_lt in *; simpl.
  - destruct (Z.ltb_spec (timestamp a + duration a) (timestamp b)),
             (Z.ltb_spec (timestamp b + duration b) (timestamp a)),
             (Z.ltb_spec (timestamp a) (timestamp b));
      simpl; try done; try lia.
    all: eexists; split; [reflexivity|];
      destruct (absorb_period b a) as [-> ->]; lia.
  - destruct (Z.ltb_spec (timestamp a + duration a) (timestamp b)),
             (Z.ltb_spec (timestamp b + duration b) (timestamp a)),
             (Z.ltb_spec (timestamp a) (timestamp b));
      simpl; try done; try lia.
    all: eexists; split; [reflexivity|];
      destruct (absorb_period a b) as [-> ->]; lia.
Qed.

(** C6. [period_union] merges touching and overlapping periods and keeps
    periods that a gap separates apart. It makes [(0,9)] of [(0,5)] and
    [(4,5)], and leaves [(0,1)] and [(5,1)] as two events. Of events of
    non-negative duration it returns events of non-negative duration, each
    ending before the next starts, that cover exactly the instants, whole or
    not, that the periods of its arguments cover; the loop does so in
    whatever order the sort leaves events that start together; and
    arguments that, one after the other, are separated by gaps already are
    returned as they are. Of two events it makes one, from the earlier start
    to the later end, when no gap separates them, and leaves them as they
    are when one does. *)
Theorem period_union_covering (events1 events2 : list Event) :
  (∀ d1 d2 : gmap string string,
     period_union [mkEvent 0 5 d1] [mkEvent 4 5 d2] = [mkEvent 0 9 d1])
  ∧ (∀ d1 d2 : gmap string string,
       period_union [mkEvent 0 1 d1] [mkEvent 5 1 d2]
       = [mkEvent 0 1 d1; mkEvent 5 1 d2])
  ∧ (Forall (λ e, 0 <= duration e) (events1 ++ events2) →
     StronglySorted ends_before (period_union events1 events2)
     ∧ Forall (λ e, 0 <= duration e) (period_union events1 events2)
     ∧ (∀ t : Q, covers (period_union events1 events2) t ↔ covers (events1 ++ events2) t)
     ∧ (∀ events : list Event,
          events ≡ₚ events1 ++ events2 → StronglySorted timestamp_le events →
          StronglySorted ends_before (merge events)
          ∧ ∀ t : Q, covers (merge events) t ↔ covers (events1 ++ events2) t)
     ∧ (StronglySorted ends_before (events1 ++ events2) →
        period_union events1 events2 = events1 ++ events2))
  ∧ (∀ a b : Event,
       0 <= duration a → 0 <= duration b →
       if TimePeriod.gap (_get_event_period a) (_get_event_period b)
       then period_union [a] [b] = (if timestamp a <? timestamp b then [a; b] else [b; a])
       else ∃ o, period_union [a] [b] = [o]
                 ∧ timestamp o = Z.min (timestamp a) (timestamp b)
                 ∧ timestamp o + duration o
                   = Z.max (timestamp a + duration a) (timestamp b + duration b)).
Proof.
  split_and!; [done..| |apply period_union_pair].
  intros Hd.
  assert (Hany : ∀ events : list Event,
            events ≡ₚ events1 ++ events2 → StronglySorted timestamp_le events →
            StronglySorted ends_before (merge events)
            ∧ ∀ t : Q, covers (merge events) t ↔ covers (events1 ++ events2) t).
  { intros events Hp Hs. rewrite <- Hp in Hd.
    setoid_rewrite <- (covers_perm _ _ _ Hp).
    destruct events as [|first events]; simpl.
    - split; [constructor|done].
    - by apply merge_from_covers. }
  rewrite period_union_merge_sorted.
  destruct (Hany (sorted (events1 ++ events2))) as [Hs Hc].
  { apply sorted_perm. }
  { apply key_le_timestamps, sorted_ascending. }
  split_and!; [done| |done|done|].
  - pose proof (sorted_perm (events1 ++ events2)) as Hp. rewrite <- Hp in Hd.
    destruct (sorted _) as [|first events]; [constructor|].
    by apply merge_from_durations.
  - intros Hsep. rewrite sorted_id by by apply ends_before_key_le.
    destruct (events1 ++ events2) as [|first events]; [done|].
    by apply merge_from_separated.
Qed.

Lemma period_union_covering_witness :
  Forall (λ e, 0 <= duration e) ([mkEvent 0 5 ∅; mkEvent 20 1 ∅] ++ [mkEvent 5 3 ∅])
  ∧ StronglySorted ends_before
      (period_union [mkEvent 0 5 ∅; mkEvent 20 1 ∅] [mkEvent 5 3 ∅])
  ∧ period_union [mkEvent 0 5 ∅; mkEvent 20 1 ∅] [mkEvent 5 3 ∅]
    = [mkEvent 0 8 ∅; mkEvent 20 1 ∅]
  ∧ ¬ covers [mkEvent 0 5 ∅; mkEvent 20 1 ∅; mkEvent 5 3 ∅] (17 # 2)
  ∧ ¬ covers (period_union [mkEvent 0 5 ∅; mkEvent 20 1 ∅] [mkEvent 5 3 ∅]) (17 # 2).
Proof.
  assert (Hd : Forall (λ e, 0 <= duration e)
                 ([mkEvent 0 5 ∅; mkEvent 20 1 ∅] ++ [mkEvent 5 3 ∅])).
  { repeat constructor; simpl; lia. }
  destruct (proj1 (proj2 (proj2 (period_union_covering
              [mkEvent 0 5 ∅; mkEvent 20 1 ∅] [mkEvent 5 3 ∅]))) Hd)
    as (Hs & _ & Hc & _).
  assert (Hno : ¬ covers [mkEvent 0 5 ∅; mkEvent 20 1 ∅; mkEvent 5 3 ∅] (17 # 2)).
  { rewrite !covers_cons. unfold covers, Qle. simpl.
    intros [?|[?|[?|(e & []%elem_of_nil & _)]]]; lia. }
  split_and!; [exact Hd|exact Hs|reflexivity|exact Hno|].
  intros Hin. apply Hno. by apply Hc in Hin.
Defined.

(** ** The data of the merged events *)

Lemma absorb_data (last_event e : Event) : data (absorb last_event e) = data last_event.
Proof. reflexivity. Qed.











(** ** The storage strategies *)

Lemma py_slice_from_0 {A} (l : list A) : py_slice_from 0 l = l.
Proof. reflexivity. Qed.

(** A positive start drops that many elements from the front. *)
Lemma py_slice_from_pos {A} (n : nat) (l : list A) :
  py_slice_from (Z.of_nat n) l = drop n l.
Proof.
  unfold py_slice_from. destruct (Z.ltb_spec (Z.of_nat n) 0); [lia|].
  by rewrite Nat2Z.id.
Qed.

(** A negative start keeps that many elements at the end. *)
Lemma py_slice_from_neg {A} (n : nat) (l : list A) :
  (0 < n)%nat →
  py_slice_from (- Z.of_nat n) l = drop (length l - n) l.
Proof.
  intros Hn. unfold py_slice_from.
  destruct (Z.ltb_spec (- Z.of_nat n) 0); [|lia].
  f_equal. lia.
Qed.

(** With limit 0 the in-memory strategy returns the whole event log, and
    with the limit [-n] the log without its [n] oldest events. *)
Lemma MemoryStorageStrategy_get_limit (self : MemoryStorageStrategy.t)
    (bucket : string) (events : list Event) (n : nat) :
  MemoryStorageStrategy.db self !! bucket = Some events →
  MemoryStorageStrategy.get self bucket 0 = events
  ∧ MemoryStorageStrategy.get self bucket (- Z.of_nat n) = drop n events.
Proof.
  intros Hdb. unfold MemoryStorageStrategy.get. rewrite Hdb. split; [done|].
  by rewrite Z.opp_involutive, py_slice_from_pos.
Qed.

(** C3. With a negative limit, [get] does not return all the events of an
    existing bucket: of a bucket that holds one event, the in-memory
    strategy, and the file strategy on an events file of one line, return
    nothing at limit [-1]; of a bucket that holds three events, the
    in-memory strategy returns the last one alone at limit [-2]. *)
Theorem get_negative_limit_drops_events :
  let e1 := mkEvent 1 1 ∅ in
  let e2 := mkEvent 2 1 ∅ in
  let e3 := mkEvent 3 1 ∅ in
  let mem := MemoryStorageStrategy.create_bucket MemoryStorageStrategy.init
               "b" "t" "c" "h" 0 None in
  let mem1 := MemoryStorageStrategy.insert_one mem "b" e1 in
  let mem3 := MemoryStorageStrategy.insert_many mem "b" [e1; e2; e3] in
  MemoryStorageStrategy.db mem1 !! "b" = Some [e1]
  ∧ MemoryStorageStrategy.get mem1 "b" (-1) = []
  ∧ MemoryStorageStrategy.get mem1 "b" 0 = [e1]
  ∧ MemoryStorageStrategy.get mem3 "b" (-2) = [e3]
  ∧ ∀ (json_loads : string → Event) (line : string),
      let file := FileStorageStrategy.mk
                    {["buckets/b/events-0.json" := [line]]} "buckets" 0 in
      FileStorageStrategy.get json_loads file "b" (-1) = []
      ∧ FileStorageStrategy.get json_loads file "b" 0 = [json_loads line].
Proof.
  cbv zeta. split_and!; [by vm_compute..|].
  intros json_loads line. by vm_compute.
Qed.

(** C9. In the in-memory strategy, [get] on a bucket id that was never
    created returns the empty list, and [insert_one] into such an id makes
    an event log for it that holds the event, and no metadata: [get] then
    returns the event, at limit 0 and at every positive limit. *)
Theorem memory_insert_one_creates_log (self : MemoryStorageStrategy.t)
    (bucket : string) (event : Event) (limit : Z) :
  MemoryStorageStrategy.db self !! bucket = None →
  MemoryStorageStrategy._metadata self !! bucket = None →
  let self' := MemoryStorageStrategy.insert_one self bucket event in
  MemoryStorageStrategy.get self bucket limit = []
  ∧ MemoryStorageStrategy.db self' !! bucket = Some [event]
  ∧ MemoryStorageStrategy._metadata self' = MemoryStorageStrategy._metadata self
  ∧ MemoryStorageStrategy.get_metadata self' bucket = inl KeyError
  ∧ (0 <= limit → MemoryStorageStrategy.get self' bucket limit = [event]).
Proof.
  intros Hdb Hmd. cbv zeta.
  assert (Hdb' : MemoryStorageStrategy.db
                   (MemoryStorageStrategy.insert_one self bucket event) !! bucket
                 = Some [event]).
  { unfold MemoryStorageStrategy.insert_one. rewrite Hdb. simpl.
    by rewrite lookup_alter_eq, lookup_insert_eq. }
  assert (Hmd' : MemoryStorageStrategy._metadata
                   (MemoryStorageStrategy.insert_one self bucket event)
                 = MemoryStorageStrategy._metadata self).
  { unfold MemoryStorageStrategy.insert_one. by rewrite Hdb. }
  split_and!.
  - unfold MemoryStorageStrategy.get. by rewrite Hdb.
  - done.
  - done.
  - unfold MemoryStorageStrategy.get_metadata. by rewrite Hmd', Hmd.
  - intros Hlimit. unfold MemoryStorageStrategy.get. rewrite Hdb'.
    unfold py_slice_from. simpl.
    destruct (Z.ltb_spec (- limit) 0); [|by replace limit with 0 by lia].
    replace (Z.to_nat _) with 0%nat by lia. done.
Qed.

Lemma memory_insert_one_creates_log_witness :
  let self := MemoryStorageStrategy.init in
  MemoryStorageStrategy.get self "b" 0 = []
  ∧ MemoryStorageStrategy.get
      (MemoryStorageStrategy.insert_one self "b" (mkEvent 1 2 ∅)) "b" 0
    = [mkEvent 1 2 ∅].
Proof.
  pose proof (memory_insert_one_creates_log MemoryStorageStrategy.init "b"
                (mkEvent 1 2 ∅) 0 (lookup_empty _) (lookup_empty _)) as Hw.
  cbv zeta in *. destruct Hw as (Hget & _ & _ & _ & Hget').
  split; [exact Hget|]. apply Hget'. lia.
Defined.

(** ** The query evaluator *)

Section query_properties.
Context `{Transforms ChunkResult EventJson}.

Lemma bucket_transform_eq (btransform : BucketTransform) (ds : Datastore)
    (limit : Z) (start end_ : option Z) :
  bucket_transform btransform ds limit start end_ =
  match bt_bucket btransform with
  | None => inl QueryException
  | Some (JStr bucket) =>
      if decide (bucket ∈ dom (ds_buckets ds)) then
        match bt_filters btransform with
        | None => inr (ds_get ds bucket limit start end_)
        | Some fs =>
            apply_each
              (λ vfilter events,
                 apply_filter bucket_transform vfilter events ds limit start end_)
              fs (ds_get ds bucket limit start end_)
        end
      else inl QueryException
  | Some _ => inl QueryException
  end.
Proof. by destruct btransform. Qed.

(** *** The two loops *)

Lemma extend_each_results (f : BucketTransform → result (list Event))
    (ts : list BucketTransform) (rs : list (list Event)) (events : list Event) :
  Forall2 (λ t r, f t = inr r) ts rs →
  extend_each f ts events = inr (events ++ concat rs).
Proof.
  intros Hrs. revert events. induction Hrs as [|t r ts rs Ht _ IH]; intros events; simpl.
  - by rewrite app_nil_r.
  - rewrite Ht. simpl. by rewrite IH, app_assoc.
Qed.

Lemma extend_each_app (f : BucketTransform → result (list Event))
    (ts1 ts2 : list BucketTransform) (events : list Event) :
  extend_each f (ts1 ++ ts2) events
  = result_bind (extend_each f ts1 events) (extend_each f ts2).
Proof.
  revert events. induction ts1 as [|t ts1 IH]; intros events; simpl; [done|].
  destruct (f t) as [e|r]; simpl; [done|]. apply IH.
Qed.

Lemma apply_each_app (apply : Filter → list Event → result (list Event))
    (fs1 fs2 : list Filter) (events : list Event) :
  apply_each apply (fs1 ++ fs2) events
  = result_bind (apply_each apply fs1 events) (apply_each apply fs2).
Proof.
  revert events. induction fs1 as [|f fs1 IH]; intros events; simpl; [done|].
  destruct (apply f events) as [e|r]; simpl; [done|]. apply IH.
Qed.

Lemma apply_each_raises (apply : Filter → list Event → result (list Event))
    (fs : list Filter) (vfilter : Filter) (events : list Event) :
  vfilter ∈ fs → (∀ events, ∃ e, apply vfilter events = inl e) →
  ∃ e, apply_each apply fs events = inl e.
Proof.
  intros Hin Hf. revert events.
  induction fs as [|f fs IH]; intros events; [by apply elem_of_nil in Hin|].
  simpl. apply elem_of_cons in Hin as [<-|Hin].
  - destruct (Hf events) as [e ->]. simpl. eauto.
  - destruct (apply f events) as [e'|r]; simpl; eauto.
Qed.

(** *** The filters *)

Lemma filters_timeperiod_intersect
    (bt : BucketTransform → Datastore → Z → option Z → option Z → result (list Event))
    (vfilter : Filter) (events : list Event) (ds : Datastore)
    (limit : Z) (start end_ : option Z) :
  filters bt "timeperiod_intersect" vfilter events ds limit start end_ =
  Some (timeperiod_intersect bt vfilter events ds limit start end_).
Proof. reflexivity. Qed.

(** *** A missing bucket *)

Lemma extend_each_evaluates (f : BucketTransform → result (list Event))
    (ts : list BucketTransform) (events : list Event) :
  Forall (λ t, ∃ r, f t = inr r) ts →
  ∃ rs, extend_each f ts events = inr rs.
Proof.
  intros Hts. revert events.
  induction Hts as [|t ts [r Ht] _ IH]; intros events; simpl; [eauto|].
  rewrite Ht. simpl. apply IH.
Qed.

Lemma reaches_missing_bucket_raises (ds : Datastore) (limit : Z)
    (start end_ : option Z) (btransform : BucketTransform) :
  reaches_missing_bucket ds limit start end_ btransform →
  bucket_transform btransform ds limit start end_ = inl QueryException.
Proof.
  induction 1 as [btransform bucket Hbucket Hmissing
                 |btransform bucket fbefore fafter tfilter events
                    nbefore nafter nested Hbucket Hthere Hfilters Hbefore
                    Hname Htransforms Hnbefore _ IH];
    rewrite bucket_transform_eq, Hbucket.
  - by rewrite decide_False.
  - rewrite decide_True, Hfilters by done.
    rewrite apply_each_app, Hbefore. simpl.
    unfold apply_filter at 1. rewrite Hname, filters_timeperiod_intersect.
    unfold timeperiod_intersect. rewrite Htransforms, extend_each_app.
    destruct (extend_each_evaluates
                (λ btransform, bucket_transform btransform ds limit start end_)
                nbefore [] Hnbefore) as [rs ->].
    simpl. by rewrite IH.
Qed.

(** C7. A query of which a transform names a bucket that is not in the
    datastore raises [QueryException] and returns no result, whatever the
    transforms after it are and however many valid transforms come before
    it. The bucket may be named by the transform itself or by a transform
    nested in one of its [timeperiod_intersect] filters, the filters and
    the nested transforms that are evaluated before it being valid. *)
Theorem query_missing_bucket_raises (before after : list BucketTransform)
    (t : BucketTransform) (chunk : option bool)
    (ds : Datastore) (limit : Z) (start end_ : option Z) :
  Forall (evaluates ds limit start end_) before →
  reaches_missing_bucket ds limit start end_ t →
  bucket_transform t ds limit start end_ = inl QueryException
  ∧ query (mkQuery (Some (before ++ t :: after)) chunk) ds limit start end_
    = inl QueryException.
Proof.
  intros Hbefore Ht%reaches_missing_bucket_raises. split; [done|].
  unfold query. simpl. rewrite extend_each_app.
  destruct (extend_each_evaluates
              (λ transform, bucket_transform transform ds limit start end_)
              before [] Hbefore) as [rs ->].
  simpl. by rewrite Ht.
Qed.

(** C2. The filter [timeperiod_intersect] evaluates each nested transform
    against the same datastore, limit, start and end, makes one list of
    their results in their order, and hands it with the events of the
    pipeline to [filter_period_intersect]. For the bucket A with
    [(0,10,label=x)] and the bucket B with [(2,3)], the query with one
    transform on A whose filter is [timeperiod_intersect] over B gives
    the one event [(2,3)] with the data of A's event. *)
Theorem timeperiod_intersect_filter :
  (∀ (tfilter : Filter) (events : list Event) (ds : Datastore) (limit : Z)
     (start end_ : option Z) (transforms : list BucketTransform)
     (rs : list (list Event)),
     f_transforms tfilter = Some transforms →
     Forall2 (λ t r, bucket_transform t ds limit start end_ = inr r) transforms rs →
     filters bucket_transform "timeperiod_intersect"
       tfilter events ds limit start end_
     = Some (inr (filter_period_intersect events (concat rs))))
  ∧ memory_datastore scenario_store = inr scenario_datastore
  ∧ MemoryStorageStrategy.db scenario_store !! "A" = Some [scenario_A]
  ∧ MemoryStorageStrategy.db scenario_store !! "B" = Some [scenario_B]
  ∧ query scenario_query scenario_datastore 0 None None
    = inr (EventList 1 [to_json_dict (mkEvent 2 3 {["label" := "x"]})]).
Proof.
  split_and!.
  - intros tfilter events ds limit start end_ transforms rs Htr Hrs.
    rewrite filters_timeperiod_intersect. unfold timeperiod_intersect.
    rewrite Htr.
    by rewrite (extend_each_results _ _ _ [] Hrs).
  - by vm_compute.
  - by vm_compute.
  - by vm_compute.
  - by vm_compute.
Qed.

(** C8. Without a [labels] field, [include_labels] returns the empty list
    and [exclude_labels] returns its events as they are. *)
Theorem label_filters_without_labels (tfilter : Filter) (events : list Event)
    (ds : Datastore) (limit : Z) (start end_ : option Z) :
  f_labels tfilter = None →
  include_labels tfilter events ds limit start end_ = []
  ∧ exclude_labels tfilter events ds limit start end_ = events.
Proof.
  intros Hlabels. unfold include_labels, exclude_labels. by rewrite Hlabels.
Qed.

End query_properties.

(** *** The evaluator on examples *)

Section query_examples.
#[local] Existing Instance example_transforms.

Lemma query_missing_bucket_raises_witness :
  let A := mkBucketTransform (Some (JStr "A")) None in
  let B := mkBucketTransform (Some (JStr "B")) None in
  let C := mkBucketTransform (Some (JStr "C")) None in
  let tfilter :=
    mkFilter (Some (JStr "timeperiod_intersect")) None (Some ([B] ++ C :: [A])) in
  let labels := mkFilter (Some (JStr "exclude_labels")) None None in
  let t := mkBucketTransform (Some (JStr "A")) (Some ([labels] ++ tfilter :: [labels])) in
  Forall (evaluates scenario_datastore 0 None None) [A; B]
  ∧ reaches_missing_bucket scenario_datastore 0 None None t
  ∧ query (mkQuery (Some ([A; B] ++ t :: [B])) None) scenario_datastore 0 None None
    = inl QueryException.
Proof.
  cbv zeta.
  assert (HA : evaluates scenario_datastore 0 None None
                 (mkBucketTransform (Some (JStr "A")) None))
    by (exists [scenario_A]; by vm_compute).
  assert (HB : evaluates scenario_datastore 0 None None
                 (mkBucketTransform (Some (JStr "B")) None))
    by (exists [scenario_B]; by vm_compute).
  assert (Hbefore : Forall (evaluates scenario_datastore 0 None None)
                      [mkBucketTransform (Some (JStr "A")) None;
                       mkBucketTransform (Some (JStr "B")) None])
    by (repeat constructor; done).
  assert (Ht : reaches_missing_bucket scenario_datastore 0 None None
                 (mkBucketTransform (Some (JStr "A"))
                    (Some ([mkFilter (Some (JStr "exclude_labels")) None None]
                           ++ mkFilter (Some (JStr "timeperiod_intersect")) None
                                (Some ([mkBucketTransform (Some (JStr "B")) None]
                                       ++ mkBucketTransform (Some (JStr "C")) None
                                       :: [mkBucketTransform (Some (JStr "A")) None]))
                           :: [mkFilter (Some (JStr "exclude_labels")) None None])))).
  { eapply (reaches_nested _ _ _ _ _ "A" _ _ _ [scenario_A]);
      [reflexivity|by vm_compute|reflexivity|by vm_compute|reflexivity|reflexivity
      |by repeat constructor|].
    eapply (reaches_here _ _ _ _ _ "C"); [reflexivity|by vm_compute]. }
  split_and!; [exact Hbefore|exact Ht|].
  exact (proj2 (query_missing_bucket_raises _ [mkBucketTransform (Some (JStr "B")) None]
                  _ None _ _ _ _ Hbefore Ht)).
Defined.

Lemma timeperiod_intersect_filter_witness :
  let B := mkBucketTransform (Some (JStr "B")) None in
  let tfilter := mkFilter (Some (JStr "timeperiod_intersect")) None (Some [B]) in
  f_transforms tfilter = Some [B]
  ∧ Forall2 (λ t r, bucket_transform t scenario_datastore
                      0 None None = inr r) [B] [[scenario_B]]
  ∧ filters bucket_transform "timeperiod_intersect"
      tfilter [scenario_A] scenario_datastore 0 None None
    = Some (inr [mkEvent 2 3 {["label" := "x"]}]).
Proof.
  cbv zeta.
  assert (Hrs : Forall2 (λ t r, bucket_transform t
                                  scenario_datastore 0 None None = inr r)
                  [mkBucketTransform (Some (JStr "B")) None] [[scenario_B]]).
  { constructor; [by vm_compute|constructor]. }
  split_and!; [reflexivity|exact Hrs|].
  rewrite (proj1 timeperiod_intersect_filter
             (mkFilter (Some (JStr "timeperiod_intersect")) None
                (Some [mkBucketTransform (Some (JStr "B")) None]))
             [scenario_A] scenario_datastore 0 None None _ _ eq_refl Hrs).
  by vm_compute.
Defined.

Lemma label_filters_without_labels_witness :
  let tfilter := mkFilter (Some (JStr "include_labels")) None None in
  f_labels tfilter = None
  ∧ include_labels tfilter [scenario_A] scenario_datastore
      0 None None = []
  ∧ exclude_labels tfilter [scenario_A] scenario_datastore
      0 None None = [scenario_A].
Proof.
  split; [reflexivity|].
  exact (label_filters_without_labels
           (mkFilter (Some (JStr "include_labels")) None None)
           [scenario_A] scenario_datastore 0 None None eq_refl).
Defined.

End query_examples.

(** * Further properties *)

(** ** The size and the place of what [filter_period_intersect] returns *)


Lemma filter_period_intersect_nil_r (events : list Event) :
  filter_period_intersect events [] = [].
Proof. rewrite filter_period_intersect_sweep. simpl. by rewrite sweep_rest_nil_r. Qed.




Lemma intersection_bounds (a b ip : TimePeriod.t) :
  TimePeriod.intersection a b = Some ip →
  TimePeriod.start ip = Z.max (TimePeriod.start a) (TimePeriod.start b)
  ∧ TimePeriod.end_ ip = Z.min (TimePeriod.end_ a) (TimePeriod.end_ b)
  ∧ TimePeriod.start ip < TimePeriod.end_ ip.
Proof.
  unfold TimePeriod.intersection. cbv zeta.
  destruct (Z.leb_spec (Z.min (TimePeriod.end_ a) (TimePeriod.end_ b))
              (Z.max (TimePeriod.start a) (TimePeriod.start b))); [done|].
  intros [= <-]. simpl. lia.
Qed.

(** X3. Every event that [filter_period_intersect] returns lies inside the
    period of an event of the first list, whose data it has, and inside the
    period of a filter event: nothing outside the filter events comes
    through. *)
Theorem filter_period_intersect_inside (events filterevents : list Event) (o : Event) :
  o ∈ filter_period_intersect events filterevents →
  ∃ e1 e2, e1 ∈ events ∧ e2 ∈ filterevents
    ∧ inside o e1 ∧ inside o e2 ∧ data o = data e1.
Proof.
  intros (e1 & e2 & ip & H1 & H2 & Hip & ->)%filter_period_intersect_elem.
  apply intersection_bounds in Hip as (Hs & He & Hlt).
  unfold inside, _replace_event_period, TimePeriod.duration. simpl in *.
  exists e1, e2. split_and!; try done; lia.
Qed.

Lemma filter_period_intersect_inside_witness :
  mkEvent 5 5 ∅ ∈ filter_period_intersect [mkEvent 0 10 ∅] [mkEvent 5 10 ∅]
  ∧ ∃ e1 e2, e1 ∈ [mkEvent 0 10 ∅] ∧ e2 ∈ [mkEvent 5 10 ∅]
      ∧ inside (mkEvent 5 5 ∅) e1 ∧ inside (mkEvent 5 5 ∅) e2
      ∧ data (mkEvent 5 5 ∅) = data e1.
Proof.
  assert (Hin : mkEvent 5 5 ∅
                ∈ filter_period_intersect [mkEvent 0 10 ∅] [mkEvent 5 10 ∅]).
  { rewrite filter_period_intersect_sweep. apply list_elem_of_here. }
  split; [exact Hin|].
  exact (filter_period_intersect_inside _ _ _ Hin).
Defined.

(** An event of the second list that ends before the first list starts is
    passed over. *)
Lemma sweep_rest_skip (e : Event) (l1 l2 : list Event) :
  0 <= duration e →
  Forall (λ e', 0 <= duration e') l1 →
  Forall (ends_before e) l1 →
  sweep_rest l1 (e :: l2) = sweep_rest l1 l2.
Proof.
  intros Hd Hd1 Hbefore. destruct l1 as [|e' l1].
  { by rewrite !sweep_rest_nil_l. }
  apply Forall_cons in Hd1 as [Hd' _]. apply Forall_cons in Hbefore as [Hb _].
  rewrite sweep_rest_cons.
  assert (sweep_turn e' e = ([], false, true)) as ->; [|done].
  revert Hb. unfold ends_before, sweep_turn, TimePeriod.intersection, _get_event_period.
  cbn. intros Hb. split_leb; try done; lia.
Qed.

Lemma sweep_rest_self (l : list Event) :
  StronglySorted ends_before l →
  Forall (λ e, 0 < duration e) l →
  clip (sweep_rest l l) = l.
Proof.
  induction 1 as [|e l Hs IH Hall]; intros Hd; [done|].
  apply Forall_cons in Hd as [He Hd].
  rewrite sweep_rest_cons.
  assert (sweep_turn e e = ([Yield e e (_get_event_period e)], true, false)) as ->.
  { unfold sweep_turn, TimePeriod.intersection, _get_event_period. cbn.
    rewrite Z.max_id, Z.min_id. split_leb; try done; lia. }
  rewrite clip_app, sweep_rest_skip, IH; try done.
  - unfold clip. simpl. f_equal. destruct e as [t d x].
    unfold _replace_event_period, TimePeriod.duration. simpl. f_equal. lia.
  - lia.
  - eapply Forall_impl; [exact Hd|]. simpl. lia.
Qed.

(** X4. Filtering a list of events by itself returns the list as it is,
    when its events last for some time and each ends before the next
    starts. *)
Theorem filter_period_intersect_self (events : list Event) :
  StronglySorted ends_before events →
  Forall (λ e, 0 < duration e) events →
  filter_period_intersect events events = events.
Proof.
  intros Hs Hd. rewrite filter_period_intersect_sweep.
  rewrite sorted_id; [by apply sweep_rest_self|].
  apply ends_before_key_le; [|done].
  eapply Forall_impl; [exact Hd|]. simpl. lia.
Qed.

Lemma filter_period_intersect_self_witness :
  let events := [mkEvent 0 2 ∅; mkEvent 5 1 {["label" := "x"]}] in
  StronglySorted ends_before events
  ∧ Forall (λ e, 0 < duration e) events
  ∧ filter_period_intersect events events = events.
Proof.
  cbv zeta.
  assert (Hs : StronglySorted ends_before
                 [mkEvent 0 2 ∅; mkEvent 5 1 {["label" := "x"]}]).
  { repeat constructor. }
  assert (Hd : Forall (λ e, 0 < duration e)
                 [mkEvent 0 2 ∅; mkEvent 5 1 {["label" := "x"]}]).
  { repeat constructor. }
  split_and!; [exact Hs|exact Hd|].
  exact (filter_period_intersect_self _ Hs Hd).
Defined.

(** ** [union] *)

(** X5. [union] returns the events of both lists, each as often as the
    lists hold it, with their timestamps ascending; it merges no periods, so
    it returns as many events as it is given. *)
Theorem union_sorted_permutation (events1 events2 : list Event) :
  aw_transform.union events1 events2 ≡ₚ events1 ++ events2
  ∧ StronglySorted timestamp_le (aw_transform.union events1 events2)
  ∧ length (aw_transform.union events1 events2)
    = (length events1 + length events2)%nat.
Proof.
  unfold aw_transform.union. split_and!.
  - apply sorted_perm.
  - apply key_le_timestamps, sorted_ascending.
  - by rewrite (Permutation_length (sorted_perm _)), length_app.
Qed.

(** ** More on [period_union] *)

#[local] Instance key_pair_le_antisymm : AntiSymm (=) key_pair_le.
Proof.
  intros [a1 a2] [b1 b2]. unfold key_pair_le. simpl. intros H1 H2.
  f_equal; lia.
Qed.

Lemma sorted_keys_ascending (l : list Event) :
  StronglySorted key_le l → StronglySorted key_pair_le (map event_key l).
Proof.
  induction 1 as [|x l Hs IH Hall]; simpl; constructor; [done|].
  apply Forall_forall. intros k (y & <- & Hy%list_elem_of_In)%list_elem_of_In%in_map_iff.
  rewrite Forall_forall in Hall. exact (Hall y Hy).
Qed.

(** The keys of the sorted list depend on the events only, not on their
    order in the argument. *)
Lemma sorted_keys_perm (l1 l2 : list Event) :
  l1 ≡ₚ l2 → map event_key (sorted l1) = map event_key (sorted l2).
Proof.
  intros Hp. apply (StronglySorted_unique key_pair_le).
  - apply sorted_keys_ascending, sorted_ascending.
  - apply sorted_keys_ascending, sorted_ascending.
  - apply Permutation_map. by rewrite !sorted_perm.
Qed.

Lemma merge_from_keys (events events' : list Event) :
  ∀ last_event last_event',
    event_key last_event = event_key last_event' →
    map event_key events = map event_key events' →
    map event_key (merge_from last_event events)
    = map event_key (merge_from last_event' events').
Proof.
  revert events'. induction events as [|e events IH];
    intros [|e' events'] last_event last_event' Hlast Hevents; try done.
  { simpl. by rewrite Hlast. }
  injection Hevents as Het Hed Hevents.
  rewrite !merge_from_cons.
  pose proof Hlast as Hlast'. unfold event_key in Hlast'.
  injection Hlast' as Hlt Hld.
  assert (Hgap : TimePeriod.gap (_get_event_period e) (_get_event_period last_event)
               = TimePeriod.gap (_get_event_period e') (_get_event_period last_event')).
  { unfold _get_event_period. cbv zeta. by rewrite Het, Hed, Hlt, Hld. }
  rewrite <- Hgap. destruct (TimePeriod.gap _ _).
  - simpl. rewrite Hlast. f_equal. apply IH; [|done].
    unfold event_key. by rewrite Het, Hed.
  - apply IH; [|done].
    unfold event_key, absorb, _replace_event_period, _get_event_period.
    simpl. by rewrite Het, Hed, Hlt, Hld.
Qed.

(** X6. The periods of the events that [period_union] returns do not depend
    on the order of its two arguments (the data may). *)
Theorem period_union_periods_commute (events1 events2 : list Event) :
  map event_key (period_union events1 events2)
  = map event_key (period_union events2 events1).
Proof.
  rewrite !period_union_merge.
  pose proof (sorted_keys_perm (events1 ++ events2) (events2 ++ events1)
                (Permutation_app_comm _ _)) as Hkeys.
  destruct (sorted (events1 ++ events2)) as [|f1 l1],
           (sorted (events2 ++ events1)) as [|f2 l2]; try done.
  injection Hkeys as Hft Hfd Hl.
  apply merge_from_keys; [|done]. unfold event_key. by rewrite Hft, Hfd.
Qed.

(** X7. Of events of non-negative duration, [period_union] returns a list
    that it leaves as it is when it is given that list again: merging is
    done in one pass. *)
Theorem period_union_idempotent (events1 events2 : list Event) :
  Forall (λ e, 0 <= duration e) (events1 ++ events2) →
  period_union (period_union events1 events2) [] = period_union events1 events2.
Proof.
  intros Hd.
  assert (Hs : StronglySorted ends_before (period_union events1 events2)
               ∧ Forall (λ e, 0 <= duration e) (period_union events1 events2)).
  { rewrite period_union_merge.
    pose proof (sorted_ascending (events1 ++ events2)) as Hs.
    rewrite <- (sorted_perm (events1 ++ events2)) in Hd.
    destruct (sorted _) as [|first events]; [by split; constructor|].
    split; [by apply merge_from_covers; [apply key_le_timestamps|]
          |by apply merge_from_durations]. }
  destruct Hs as [Hs Hd'].
  rewrite (period_union_merge (period_union _ _) []), app_nil_r.
  rewrite sorted_id by by apply ends_before_key_le.
  destruct (period_union events1 events2) as [|first events]; [done|].
  by apply merge_from_separated.
Qed.

Lemma period_union_idempotent_witness :
  let events1 := [mkEvent 0 5 ∅; mkEvent 20 1 ∅] in
  let events2 := [mkEvent 4 5 ∅] in
  Forall (λ e, 0 <= duration e) (events1 ++ events2)
  ∧ period_union (period_union events1 events2) [] = [mkEvent 0 9 ∅; mkEvent 20 1 ∅].
Proof.
  cbv zeta.
  assert (Hd : Forall (λ e, 0 <= duration e)
                 ([mkEvent 0 5 ∅; mkEvent 20 1 ∅] ++ [mkEvent 4 5 ∅])).
  { repeat constructor; simpl; lia. }
  split; [exact Hd|].
  by rewrite (period_union_idempotent _ _ Hd).
Defined.

Lemma merge_from_length (events : list Event) :
  ∀ last_event,
    (0 < length (merge_from last_event events) ≤ S (length events))%nat.
Proof.
  induction events as [|e events IH]; intros last_event; [simpl; lia|].
  rewrite merge_from_cons. destruct (TimePeriod.gap _ _).
  - specialize (IH e). simpl. lia.
  - specialize (IH (absorb last_event e)). simpl. lia.
Qed.

(** X8. [period_union] returns no more events than it is given, and it
    returns none only when both lists are empty. *)
Theorem period_union_size (events1 events2 : list Event) :
  (length (period_union events1 events2) ≤ length events1 + length events2)%nat
  ∧ (period_union events1 events2 = [] ↔ events1 = [] ∧ events2 = []).
Proof.
  rewrite period_union_merge.
  pose proof (Permutation_length (sorted_perm (events1 ++ events2))) as Hlen.
  rewrite length_app in Hlen.
  destruct (sorted (events1 ++ events2)) as [|first events] eqn:Hsorted.
  - simpl in Hlen. split; [simpl; lia|].
    split; [|done]. intros _. by destruct events1, events2.
  - pose proof (merge_from_length events first) as Hm. simpl in Hlen.
    split; [lia|]. split.
    + intros Hnil. rewrite Hnil in Hm. simpl in Hm. lia.
    + intros [-> ->]. done.
Qed.

(** ** The in-memory strategy *)

Lemma get_limit_0 (self : MemoryStorageStrategy.t) (bucket : string) :
  MemoryStorageStrategy.get self bucket 0
  = default [] (MemoryStorageStrategy.db self !! bucket).
Proof. unfold MemoryStorageStrategy.get. by destruct (_ !! bucket). Qed.

(** X9. With a positive limit [n], [get] returns the last [n] events of the
    bucket's log in the order they were inserted, and the whole log when it
    holds no more than [n]. *)
Theorem memory_get_positive_limit (self : MemoryStorageStrategy.t)
    (bucket : string) (events : list Event) (n : nat) :
  MemoryStorageStrategy.db self !! bucket = Some events →
  (0 < n)%nat →
  MemoryStorageStrategy.get self bucket (Z.of_nat n) = drop (length events - n) events
  ∧ length (MemoryStorageStrategy.get self bucket (Z.of_nat n))
    = (n `min` length events)%nat
  ∧ (length events ≤ n →
     MemoryStorageStrategy.get self bucket (Z.of_nat n) = events)%nat.
Proof.
  intros Hdb Hn. unfold MemoryStorageStrategy.get. rewrite Hdb.
  rewrite py_slice_from_neg by done. split_and!.
  - done.
  - rewrite length_drop. lia.
  - intros Hle. by replace (length events - n)%nat with 0%nat by lia.
Qed.

Lemma memory_get_positive_limit_witness :
  let e1 := mkEvent 1 1 ∅ in
  let e2 := mkEvent 2 1 ∅ in
  let e3 := mkEvent 3 1 ∅ in
  let self := MemoryStorageStrategy.mk {["b" := [e1; e2; e3]]} ∅ in
  MemoryStorageStrategy.db self !! "b" = Some [e1; e2; e3]
  ∧ MemoryStorageStrategy.get self "b" 2 = [e2; e3].
Proof.
  cbv zeta. split; [by vm_compute|].
  exact (proj1 (memory_get_positive_limit
                  (MemoryStorageStrategy.mk
                     {["b" := [mkEvent 1 1 ∅; mkEvent 2 1 ∅; mkEvent 3 1 ∅]]} ∅)
                  "b" _ 2 (lookup_singleton_eq _ _) (Nat.lt_0_succ 1))).
Defined.

Lemma insert_one_db (self : MemoryStorageStrategy.t) (bucket : string) (event : Event) :
  MemoryStorageStrategy.db (MemoryStorageStrategy.insert_one self bucket event)
  = <[bucket := default [] (MemoryStorageStrategy.db self !! bucket) ++ [event]]>
      (MemoryStorageStrategy.db self).
Proof.
  unfold MemoryStorageStrategy.insert_one.
  destruct (MemoryStorageStrategy.db self !! bucket) as [events|] eqn:Hdb; simpl.
  - apply map_eq. intros b. destruct (decide (bucket = b)) as [<-|Hne].
    + by rewrite lookup_alter_eq, lookup_insert_eq, Hdb.
    + by rewrite lookup_alter_ne, lookup_insert_ne.
  - apply map_eq. intros b. destruct (decide (bucket = b)) as [<-|Hne].
    + by rewrite lookup_alter_eq, !lookup_insert_eq.
    + by rewrite lookup_alter_ne, !lookup_insert_ne.
Qed.

Lemma insert_one_metadata (self : MemoryStorageStrategy.t) (bucket : string)
    (event : Event) :
  MemoryStorageStrategy._metadata (MemoryStorageStrategy.insert_one self bucket event)
  = MemoryStorageStrategy._metadata self.
Proof.
  unfold MemoryStorageStrategy.insert_one. by destruct (_ !! bucket).
Qed.

Lemma memory_insert_one_appends_aux (self : MemoryStorageStrategy.t)
    (bucket : string) (event : Event) :
  MemoryStorageStrategy.get (MemoryStorageStrategy.insert_one self bucket event)
    bucket 0
  = MemoryStorageStrategy.get self bucket 0 ++ [event]
  ∧ (∀ other limit, other ≠ bucket →
       MemoryStorageStrategy.get (MemoryStorageStrategy.insert_one self bucket event)
         other limit
       = MemoryStorageStrategy.get self other limit)
  ∧ MemoryStorageStrategy._metadata (MemoryStorageStrategy.insert_one self bucket event)
    = MemoryStorageStrategy._metadata self.
Proof.
  split_and!.
  - rewrite !get_limit_0, insert_one_db. by rewrite lookup_insert_eq.
  - intros other limit Hne. unfold MemoryStorageStrategy.get.
    by rewrite insert_one_db, lookup_insert_ne.
  - apply insert_one_metadata.
Qed.

(** X10. [insert_one] puts the event at the end of the bucket's log, so that
    [get] with limit 1 returns it and [get] with limit 0 returns the log as
    it was with the event after it; the logs of the other buckets and the
    metadata stay as they are. *)
Theorem memory_insert_one_appends (self : MemoryStorageStrategy.t)
    (bucket : string) (event : Event) :
  let self' := MemoryStorageStrategy.insert_one self bucket event in
  MemoryStorageStrategy.get self' bucket 0
    = MemoryStorageStrategy.get self bucket 0 ++ [event]
  ∧ MemoryStorageStrategy.get self' bucket 1 = [event]
  ∧ (∀ other limit, other ≠ bucket →
       MemoryStorageStrategy.get self' other limit
       = MemoryStorageStrategy.get self other limit)
  ∧ MemoryStorageStrategy._metadata self' = MemoryStorageStrategy._metadata self.
Proof.
  cbv zeta.
  destruct (memory_insert_one_appends_aux self bucket event) as (Hget & Hother & Hmd).
  split_and!; [done| |done|done].
  - unfold MemoryStorageStrategy.get at 1.
    rewrite insert_one_db, lookup_insert_eq.
    rewrite (py_slice_from_neg 1) by lia.
    rewrite length_app. simpl.
    replace (length _ + 1 - 1)%nat
      with (length (default [] (MemoryStorageStrategy.db self !! bucket)) + 0)%nat
      by lia.
    by rewrite drop_app_length'.
Qed.

Lemma insert_many_get (events : list Event) :
  ∀ (self : MemoryStorageStrategy.t) (bucket : string),
    MemoryStorageStrategy.get (MemoryStorageStrategy.insert_many self bucket events)
      bucket 0
    = MemoryStorageStrategy.get self bucket 0 ++ events
    ∧ (∀ other limit, other ≠ bucket →
         MemoryStorageStrategy.get
           (MemoryStorageStrategy.insert_many self bucket events) other limit
         = MemoryStorageStrategy.get self other limit)
    ∧ MemoryStorageStrategy._metadata
        (MemoryStorageStrategy.insert_many self bucket events)
      = MemoryStorageStrategy._metadata self.
Proof.
  unfold MemoryStorageStrategy.insert_many.
  induction events as [|e events IH]; intros self bucket; simpl.
  { by rewrite app_nil_r. }
  destruct (IH (MemoryStorageStrategy.insert_one self bucket e) bucket)
    as (Hget & Hother & Hmd).
  destruct (memory_insert_one_appends_aux self bucket e) as (Hget1 & Hother1 & Hmd1).
  split_and!.
  - by rewrite Hget, Hget1, <- app_assoc.
  - intros other limit Hne. by rewrite Hother, Hother1.
  - by rewrite Hmd, Hmd1.
Qed.

(** X11. [insert_many] puts the events at the end of the bucket's log in
    the order of the batch: [get] with limit 0 returns the old log with the
    batch after it, and [get] with the size of a non-empty batch as limit
    returns the batch; the other buckets and the metadata stay as they
    are. *)
Theorem memory_insert_many_appends (self : MemoryStorageStrategy.t)
    (bucket : string) (events : list Event) :
  let self' := MemoryStorageStrategy.insert_many self bucket events in
  MemoryStorageStrategy.get self' bucket 0
    = MemoryStorageStrategy.get self bucket 0 ++ events
  ∧ (events ≠ [] →
     MemoryStorageStrategy.get self' bucket (Z.of_nat (length events)) = events)
  ∧ (∀ other limit, other ≠ bucket →
       MemoryStorageStrategy.get self' other limit
       = MemoryStorageStrategy.get self other limit)
  ∧ MemoryStorageStrategy._metadata self' = MemoryStorageStrategy._metadata self.
Proof.
  cbv zeta. destruct (insert_many_get events self bucket) as (Hget & Hother & Hmd).
  split_and!; [done| |done|done].
  intros Hne. rewrite get_limit_0 in Hget.
  unfold MemoryStorageStrategy.get at 1.
  destruct (MemoryStorageStrategy.db _ !! bucket) as [l|]; simpl in Hget.
  - rewrite py_slice_from_neg by (destruct events; [done|simpl; lia]).
    rewrite Hget, length_app.
    replace (_ + length events - length events)%nat
      with (length (MemoryStorageStrategy.get self bucket 0) + 0)%nat by lia.
    by rewrite drop_app_length'.
  - symmetry in Hget. by apply app_eq_nil in Hget as [_ ?].
Qed.

Lemma memory_insert_many_appends_witness :
  let batch := [mkEvent 1 1 ∅; mkEvent 2 1 ∅] in
  batch ≠ []
  ∧ MemoryStorageStrategy.get
      (MemoryStorageStrategy.insert_many
         (MemoryStorageStrategy.insert_one MemoryStorageStrategy.init "b"
            (mkEvent 0 1 ∅)) "b" batch) "b" 2
    = batch.
Proof.
  cbv zeta.
  assert (Hne : [mkEvent 1 1 ∅; mkEvent 2 1 ∅] ≠ []) by done.
  split; [exact Hne|].
  exact (proj1 (proj2 (memory_insert_many_appends
                         (MemoryStorageStrategy.insert_one MemoryStorageStrategy.init
                            "b" (mkEvent 0 1 ∅)) "b" _)) Hne).
Defined.

(** X12. [create_bucket] gives the bucket an empty event log and its
    metadata, whether the bucket was there or not: the events of a bucket
    that is created again are gone. An absent or empty name is replaced by
    the client and the hostname joined by a dash. The other buckets stay as
    they are. *)
Theorem memory_create_bucket_resets (self : MemoryStorageStrategy.t)
    (bucket_id type_id client hostname : string) (created : Z) (name : option string) :
  let self' := MemoryStorageStrategy.create_bucket self bucket_id type_id client
                 hostname created name in
  (∀ limit, MemoryStorageStrategy.get self' bucket_id limit = [])
  ∧ MemoryStorageStrategy.get_metadata self' bucket_id
    = inr (mkMetadata bucket_id
             (match name with
              | Some (String c n) => String c n
              | _ => client +:+ "-" +:+ hostname
              end)
             type_id client hostname created)
  ∧ (∀ other limit, other ≠ bucket_id →
       MemoryStorageStrategy.get self' other limit
       = MemoryStorageStrategy.get self other limit)
  ∧ (∀ other, other ≠ bucket_id →
       MemoryStorageStrategy.get_metadata self' other
       = MemoryStorageStrategy.get_metadata self other).
Proof.
  cbv zeta.
  unfold MemoryStorageStrategy.create_bucket, MemoryStorageStrategy.get,
    MemoryStorageStrategy.get_metadata. simpl.
  split_and!.
  - intros limit. rewrite lookup_insert_eq. unfold py_slice_from.
    destruct (_ <? _); apply drop_nil.
  - rewrite lookup_insert_eq. by destruct name as [[|c n]|].
  - intros other limit Hne. by rewrite lookup_insert_ne.
  - intros other Hne. by rewrite lookup_insert_ne.
Qed.

(** X13. [delete_bucket] raises [KeyError] and changes nothing when the
    bucket has no event log. When the bucket has a log and metadata, both
    are removed, and nothing else. When it has a log and no metadata, the
    log is removed and [KeyError] is raised all the same. *)
Theorem memory_delete_bucket (self : MemoryStorageStrategy.t) (bucket_id : string) :
  let r := MemoryStorageStrategy.delete_bucket self bucket_id in
  (MemoryStorageStrategy.db self !! bucket_id = None → r = (inl KeyError, self))
  ∧ (is_Some (MemoryStorageStrategy.db self !! bucket_id) →
     MemoryStorageStrategy.db r.2 = delete bucket_id (MemoryStorageStrategy.db self)
     ∧ MemoryStorageStrategy._metadata r.2
       = delete bucket_id (MemoryStorageStrategy._metadata self)
     ∧ (∀ limit, MemoryStorageStrategy.get r.2 bucket_id limit = [])
     ∧ MemoryStorageStrategy.get_metadata r.2 bucket_id = inl KeyError
     ∧ (r.1 = inr () ↔ is_Some (MemoryStorageStrategy._metadata self !! bucket_id))
     ∧ (r.1 = inl KeyError ↔ MemoryStorageStrategy._metadata self !! bucket_id = None)).
Proof.
  cbv zeta. unfold MemoryStorageStrategy.delete_bucket. split.
  - by intros ->.
  - intros [events ->]. simpl.
    destruct (MemoryStorageStrategy._metadata self !! bucket_id) as [md|] eqn:Hmd;
      simpl; unfold MemoryStorageStrategy.get, MemoryStorageStrategy.get_metadata;
      simpl; rewrite ?lookup_delete_eq, ?Hmd.
    + split_and!; done.
    + split_and!; try done. by rewrite delete_id.
Qed.

Lemma memory_delete_bucket_witness :
  let self := MemoryStorageStrategy.insert_one MemoryStorageStrategy.init "b"
                (mkEvent 1 1 ∅) in
  is_Some (MemoryStorageStrategy.db self !! "b")
  ∧ (MemoryStorageStrategy.delete_bucket self "b").1 = inl KeyError
  ∧ MemoryStorageStrategy.get (MemoryStorageStrategy.delete_bucket self "b").2 "b" 0
    = [].
Proof.
  cbv zeta.
  assert (His : is_Some (MemoryStorageStrategy.db
                           (MemoryStorageStrategy.insert_one MemoryStorageStrategy.init
                              "b" (mkEvent 1 1 ∅)) !! "b")).
  { by eexists; vm_compute. }
  destruct (proj2 (memory_delete_bucket
                     (MemoryStorageStrategy.insert_one MemoryStorageStrategy.init
                        "b" (mkEvent 1 1 ∅)) "b") His)
    as (_ & _ & Hget & _ & _ & Herr).
  split_and!; [exact His| |exact (Hget 0)].
  apply Herr. by vm_compute.
Defined.

(** *** Listing the buckets *)

Lemma buckets_fold_raised (self : MemoryStorageStrategy.t) (ks : list string)
    (e : exception) :
  foldl (buckets_step self) (inl e) ks = inl e.
Proof. induction ks as [|k ks IH]; [done|]. exact IH. Qed.

Lemma buckets_step_eq (self : MemoryStorageStrategy.t)
    (acc : gmap string Metadata) (k : string) :
  buckets_step self (inr acc) k =
  match MemoryStorageStrategy._metadata self !! k with
  | Some md => inr (<[k := md]> acc)
  | None => inl KeyError
  end.
Proof.
  unfold buckets_step, MemoryStorageStrategy.get_metadata. simpl.
  by destruct (_ !! k).
Qed.

Lemma buckets_fold (self : MemoryStorageStrategy.t) (ks : list string) :
  ∀ acc : gmap string Metadata,
    (Forall (λ k, is_Some (MemoryStorageStrategy._metadata self !! k)) ks →
     ∃ bs,
       foldl (buckets_step self) (inr acc) ks = inr bs
       ∧ ∀ k, bs !! k = if decide (k ∈ ks)
                         then MemoryStorageStrategy._metadata self !! k
                         else acc !! k)
    ∧ (Exists (λ k, MemoryStorageStrategy._metadata self !! k = None) ks →
       foldl (buckets_step self) (inr acc) ks = inl KeyError).
Proof.
  induction ks as [|k ks IH]; intros acc.
  { split.
    - intros _. exists acc. split; [done|]. intros k. case_decide; [|done].
      by apply elem_of_nil in H.
    - by intros ?%Exists_nil. }
  cbn [foldl]. rewrite buckets_step_eq.
  destruct (MemoryStorageStrategy._metadata self !! k) as [md|] eqn:Hk.
  - destruct (IH (<[k := md]> acc)) as [IHok IHerr]. split.
    + intros [_ Hall]%Forall_cons. destruct (IHok Hall) as (bs & -> & Hbs).
      exists bs. split; [done|]. intros k'. rewrite Hbs.
      destruct (decide (k' ∈ ks)) as [Hin|Hnin],
               (decide (k' ∈ k :: ks)) as [Hin'|Hnin']; try done.
      * exfalso. apply Hnin'. by right.
      * apply elem_of_cons in Hin' as [->|?]; [|done].
        by rewrite lookup_insert_eq.
      * apply lookup_insert_ne. intros ->. apply Hnin'. left.
    + intros [Hnone|Hex]%Exists_cons; [congruence|]. by apply IHerr.
  - split.
    + intros [[? ?] _]%Forall_cons. congruence.
    + intros _. apply buckets_fold_raised.
Qed.

Lemma buckets_listed (self : MemoryStorageStrategy.t) :
  dom (MemoryStorageStrategy.db self) ⊆ dom (MemoryStorageStrategy._metadata self) →
  ∃ bs, MemoryStorageStrategy.buckets self = inr bs
        ∧ dom bs = dom (MemoryStorageStrategy.db self)
        ∧ ∀ b, b ∈ dom (MemoryStorageStrategy.db self) →
               bs !! b = MemoryStorageStrategy._metadata self !! b.
Proof.
  intros Hsub. change (MemoryStorageStrategy.buckets self)
    with (foldl (buckets_step self) (inr ∅)
            (elements (dom (MemoryStorageStrategy.db self)))).
  destruct (proj1 (buckets_fold self (elements (dom (MemoryStorageStrategy.db self))) ∅))
    as (bs & Hbs & Hlookup).
  { apply Forall_forall. intros k Hk%elem_of_elements. apply elem_of_dom. auto. }
  exists bs. split; [done|].
  assert (Hin : ∀ b, b ∈ dom (MemoryStorageStrategy.db self) →
                     bs !! b = MemoryStorageStrategy._metadata self !! b).
  { intros b Hb. rewrite Hlookup. by rewrite decide_True by by apply elem_of_elements. }
  split; [|done].
  apply set_eq. intros b. rewrite elem_of_dom. split.
  - intros His. rewrite Hlookup in His. case_decide as Hb.
    + by apply elem_of_elements in Hb.
    + rewrite lookup_empty in His. by destruct His.
  - intros Hb. rewrite (Hin b Hb). apply elem_of_dom. auto.
Qed.

Lemma buckets_raises (self : MemoryStorageStrategy.t) (bucket : string) :
  bucket ∈ dom (MemoryStorageStrategy.db self) →
  MemoryStorageStrategy._metadata self !! bucket = None →
  MemoryStorageStrategy.buckets self = inl KeyError.
Proof.
  intros Hb Hnone. change (MemoryStorageStrategy.buckets self)
    with (foldl (buckets_step self) (inr ∅)
            (elements (dom (MemoryStorageStrategy.db self)))).
  apply (proj2 (buckets_fold self _ ∅)).
  apply Exists_exists. exists bucket. split; [|done]. by apply elem_of_elements.
Qed.

(** X14. [buckets] returns the metadata of exactly the buckets that have an
    event log when each of them has metadata, and raises [KeyError] as soon
    as one of them has none. *)
Theorem memory_buckets_listing (self : MemoryStorageStrategy.t) :
  (dom (MemoryStorageStrategy.db self) ⊆ dom (MemoryStorageStrategy._metadata self) →
   ∃ bs, MemoryStorageStrategy.buckets self = inr bs
         ∧ dom bs = dom (MemoryStorageStrategy.db self)
         ∧ ∀ b, b ∈ dom (MemoryStorageStrategy.db self) →
                bs !! b = MemoryStorageStrategy._metadata self !! b)
  ∧ (∀ bucket,
       bucket ∈ dom (MemoryStorageStrategy.db self) →
       MemoryStorageStrategy._metadata self !! bucket = None →
       MemoryStorageStrategy.buckets self = inl KeyError).
Proof. split; [apply buckets_listed|apply buckets_raises]. Qed.

Lemma memory_buckets_listing_witness :
  dom (MemoryStorageStrategy.db scenario_store)
    ⊆ dom (MemoryStorageStrategy._metadata scenario_store)
  ∧ ∃ bs, MemoryStorageStrategy.buckets scenario_store = inr bs
          ∧ dom bs = dom (MemoryStorageStrategy.db scenario_store).
Proof.
  assert (Hsub : dom (MemoryStorageStrategy.db scenario_store)
                   ⊆ dom (MemoryStorageStrategy._metadata scenario_store)).
  { by vm_compute. }
  split; [exact Hsub|].
  destruct (proj1 (memory_buckets_listing scenario_store) Hsub) as (bs & Hbs & Hdom & _).
  by exists bs.
Defined.

(** X15. [insert_one] into a bucket that was never created leaves the
    strategy unable to list its buckets: [buckets] raises [KeyError]. *)
Theorem memory_insert_one_breaks_buckets (self : MemoryStorageStrategy.t)
    (bucket : string) (event : Event) :
  MemoryStorageStrategy._metadata self !! bucket = None →
  MemoryStorageStrategy.buckets (MemoryStorageStrategy.insert_one self bucket event)
  = inl KeyError.
Proof.
  intros Hmd. apply buckets_raises with bucket.
  - rewrite insert_one_db. apply elem_of_dom. rewrite lookup_insert_eq. eauto.
  - by rewrite insert_one_metadata.
Qed.

Lemma memory_insert_one_breaks_buckets_witness :
  MemoryStorageStrategy._metadata scenario_store !! "C" = None
  ∧ MemoryStorageStrategy.buckets
      (MemoryStorageStrategy.insert_one scenario_store "C" scenario_B)
    = inl KeyError.
Proof.
  assert (Hmd : MemoryStorageStrategy._metadata scenario_store !! "C" = None)
    by by vm_compute.
  split; [exact Hmd|].
  exact (memory_insert_one_breaks_buckets scenario_store "C" scenario_B Hmd).
Defined.

(** *** What a run of calls keeps *)

Lemma insert_one_dom (self : MemoryStorageStrategy.t) (bucket : string) (event : Event) :
  bucket ∈ dom (MemoryStorageStrategy.db self) →
  dom (MemoryStorageStrategy.db (MemoryStorageStrategy.insert_one self bucket event))
  = dom (MemoryStorageStrategy.db self).
Proof.
  intros Hb. rewrite insert_one_db, dom_insert_L.
  by apply subseteq_union_1_L, singleton_subseteq_l.
Qed.

Lemma insert_many_dom (events : list Event) :
  ∀ (self : MemoryStorageStrategy.t) (bucket : string),
    bucket ∈ dom (MemoryStorageStrategy.db self) →
    dom (MemoryStorageStrategy.db (MemoryStorageStrategy.insert_many self bucket events))
    = dom (MemoryStorageStrategy.db self)
    ∧ MemoryStorageStrategy._metadata
        (MemoryStorageStrategy.insert_many self bucket events)
      = MemoryStorageStrategy._metadata self.
Proof.
  unfold MemoryStorageStrategy.insert_many.
  induction events as [|e events IH]; intros self bucket Hb; [done|].
  simpl. destruct (IH (MemoryStorageStrategy.insert_one self bucket e) bucket)
    as [Hdom Hmd].
  { by rewrite insert_one_dom. }
  by rewrite Hdom, Hmd, insert_one_dom, insert_one_metadata.
Qed.

Lemma memory_step_keeps (self : MemoryStorageStrategy.t) (call : memory_call) :
  dom (MemoryStorageStrategy.db self) = dom (MemoryStorageStrategy._metadata self) →
  inserts_into_log self call = true →
  dom (MemoryStorageStrategy.db (memory_step self call))
  = dom (MemoryStorageStrategy._metadata (memory_step self call)).
Proof.
  intros Hinv Hcall.
  destruct call as [b ty c h cr n|b|b e|b es];
    cbn [memory_step inserts_into_log] in *.
  - simpl. by rewrite !dom_insert_L, Hinv.
  - unfold MemoryStorageStrategy.delete_bucket.
    destruct (MemoryStorageStrategy.db self !! b) as [events|] eqn:Hdb; [|done].
    simpl.
    destruct (MemoryStorageStrategy._metadata self !! b) as [md|] eqn:Hmd; simpl.
    + by rewrite !dom_delete_L, Hinv.
    + apply (elem_of_dom_2 (MemoryStorageStrategy.db self)) in Hdb.
      rewrite Hinv in Hdb. by apply not_elem_of_dom in Hmd.
  - apply bool_decide_eq_true in Hcall.
    by rewrite insert_one_dom, insert_one_metadata.
  - apply bool_decide_eq_true in Hcall.
    destruct (insert_many_dom es self b Hcall) as [-> ->]. done.
Qed.

Lemma memory_run_keeps (calls : list memory_call) :
  ∀ self,
    dom (MemoryStorageStrategy.db self) = dom (MemoryStorageStrategy._metadata self) →
    insert_into_logs self calls = true →
    dom (MemoryStorageStrategy.db (memory_run self calls))
    = dom (MemoryStorageStrategy._metadata (memory_run self calls)).
Proof.
  induction calls as [|call calls IH]; intros self Hinv Hcalls; [done|].
  simpl in Hcalls. apply andb_true_iff in Hcalls as [Hcall Hcalls].
  apply (IH (memory_step self call)); [|done]. by apply memory_step_keeps.
Qed.

(** X16. As long as events are inserted only into buckets that have an
    event log, any run of [create_bucket], [delete_bucket], [insert_one] and
    [insert_many] from the empty strategy keeps the buckets with a log and
    the buckets with metadata the same, and [buckets] lists them without
    raising. *)
Theorem memory_run_buckets (calls : list memory_call) :
  insert_into_logs MemoryStorageStrategy.init calls = true →
  let self := memory_run MemoryStorageStrategy.init calls in
  dom (MemoryStorageStrategy.db self) = dom (MemoryStorageStrategy._metadata self)
  ∧ ∃ bs, MemoryStorageStrategy.buckets self = inr bs
          ∧ dom bs = dom (MemoryStorageStrategy.db self).
Proof.
  intros Hcalls. cbv zeta.
  assert (Hinv : dom (MemoryStorageStrategy.db
                        (memory_run MemoryStorageStrategy.init calls))
                 = dom (MemoryStorageStrategy._metadata
                          (memory_run MemoryStorageStrategy.init calls))).
  { apply memory_run_keeps; [|done]. simpl. by rewrite !dom_empty_L. }
  split; [done|].
  destruct (buckets_listed (memory_run MemoryStorageStrategy.init calls))
    as (bs & Hbs & Hdom & _); [by rewrite Hinv|].
  by exists bs.
Qed.

Lemma memory_run_buckets_witness :
  let calls := [CreateBucket "A" "window" "client" "host" 0 None;
                InsertOne "A" scenario_A;
                CreateBucket "B" "afk" "client" "host" 0 None;
                InsertMany "B" [scenario_B];
                DeleteBucket "A"] in
  insert_into_logs MemoryStorageStrategy.init calls = true
  ∧ dom (MemoryStorageStrategy.db (memory_run MemoryStorageStrategy.init calls))
    = dom (MemoryStorageStrategy._metadata
             (memory_run MemoryStorageStrategy.init calls)).
Proof.
  cbv zeta.
  assert (Hcalls : insert_into_logs MemoryStorageStrategy.init
                     [CreateBucket "A" "window" "client" "host" 0 None;
                      InsertOne "A" scenario_A;
                      CreateBucket "B" "afk" "client" "host" 0 None;
                      InsertMany "B" [scenario_B];
                      DeleteBucket "A"] = true) by by vm_compute.
  split; [exact Hcalls|].
  exact (proj1 (memory_run_buckets _ Hcalls)).
Defined.

(** ** The file strategy *)



(** ** More on the query evaluator *)

Section query_further.
Context `{Transforms ChunkResult EventJson}.

Lemma extend_each_from (f : BucketTransform → result (list Event))
    (ts : list BucketTransform) (events : list Event) :
  extend_each f ts events
  = result_bind (extend_each f ts []) (λ r, inr (events ++ r)).
Proof.
  revert events. induction ts as [|t ts IH]; intros events; simpl.
  { by rewrite app_nil_r. }
  destruct (f t) as [e|r]; simpl; [done|].
  rewrite (IH (events ++ r)), (IH r).
  destruct (extend_each f ts []) as [e|r']; simpl; [done|].
  by rewrite app_assoc.
Qed.

(** X18. A query over two lists of transforms, one after the other, returns
    the events of the first list followed by the events of the second,
    without merging them: the event counts add up. *)
Theorem query_concatenates (ts1 ts2 : list BucketTransform) (chunk : option bool)
    (ds : Datastore) (limit : Z) (start end_ : option Z)
    (n1 n2 : nat) (l1 l2 : list EventJson) :
  query (mkQuery (Some ts1) chunk) ds limit start end_ = inr (EventList n1 l1) →
  query (mkQuery (Some ts2) chunk) ds limit start end_ = inr (EventList n2 l2) →
  query (mkQuery (Some (ts1 ++ ts2)) chunk) ds limit start end_
  = inr (EventList (n1 + n2) (l1 ++ l2)).
Proof.
  unfold query. simpl.
  set (f := λ transform, bucket_transform transform ds limit start end_).
  rewrite extend_each_app.
  destruct (extend_each f ts1 []) as [e1|ev1]; simpl; [done|].
  rewrite (extend_each_from f ts2 ev1).
  destruct (extend_each f ts2 []) as [e2|ev2]; simpl; [by destruct (default _ _)|].
  destruct (default false chunk); [done|].
  intros [= <- <-] [= <- <-]. by rewrite length_app, map_app.
Qed.

(** X19. The first transform that raises ends the evaluation with its
    exception: the transforms after it have no part in the result. *)
Theorem query_raises_at_first (before after : list BucketTransform) (t : BucketTransform)
    (rs : list (list Event)) (e : exception) (chunk : option bool)
    (ds : Datastore) (limit : Z) (start end_ : option Z) :
  Forall2 (λ t' r, bucket_transform t' ds limit start end_ = inr r) before rs →
  bucket_transform t ds limit start end_ = inl e →
  query (mkQuery (Some (before ++ t :: after)) chunk) ds limit start end_ = inl e.
Proof.
  intros Hbefore Ht. unfold query. simpl.
  rewrite extend_each_app, (extend_each_results _ _ _ _ Hbefore). simpl.
  by rewrite Ht.
Qed.

(** X20. The filters of a transform are applied one after the other, each
    to what the one before it returned: a transform with the filters [fs1]
    followed by [fs2] gives what [fs2] makes of the result of the transform
    with [fs1] alone, and raises when that one raises. A transform without
    a [filters] field is a transform with no filter. *)
Theorem bucket_transform_pipeline (bucket : option json_value) (fs1 fs2 : list Filter)
    (ds : Datastore) (limit : Z) (start end_ : option Z) :
  bucket_transform (mkBucketTransform bucket (Some (fs1 ++ fs2))) ds limit start end_
  = result_bind
      (bucket_transform (mkBucketTransform bucket (Some fs1)) ds limit start end_)
      (apply_each
         (λ vfilter events,
            apply_filter bucket_transform vfilter events ds limit start end_) fs2)
  ∧ bucket_transform (mkBucketTransform bucket None) ds limit start end_
    = bucket_transform (mkBucketTransform bucket (Some [])) ds limit start end_.
Proof.
  rewrite !bucket_transform_eq. simpl.
  destruct bucket as [[b| | |]|]; try done.
  case_decide; [|done]. split; [|done]. apply apply_each_app.
Qed.

Lemma apply_filter_unnamed
    (bt : BucketTransform → Datastore → Z → option Z → option Z → result (list Event))
    (vfilter : Filter) (events : list Event) (ds : Datastore)
    (limit : Z) (start end_ : option Z) :
  names_filter vfilter = false →
  apply_filter bt vfilter events ds limit start end_ = inl QueryException.
Proof.
  unfold names_filter, apply_filter, filters.
  destruct (f_name vfilter) as [[filtername| | |]|]; try done.
  intros Hname. repeat case_decide; subst; done.
Qed.

(** X21. A filter whose name is missing, is not a string, or is not one of
    the three filters makes the transform raise, wherever it stands among
    the filters; when the bucket of the transform is in the datastore and
    the filters before it return their events, the exception is
    [QueryException], whatever the filters after it are. *)
Theorem bucket_transform_unknown_filter (btransform : BucketTransform)
    (fs : list Filter) (vfilter : Filter)
    (ds : Datastore) (limit : Z) (start end_ : option Z) :
  bt_filters btransform = Some fs →
  vfilter ∈ fs →
  names_filter vfilter = false →
  (∃ e, bucket_transform btransform ds limit start end_ = inl e)
  ∧ (∀ (bucket : string) (fbefore fafter : list Filter) (events : list Event),
       fs = fbefore ++ vfilter :: fafter →
       bt_bucket btransform = Some (JStr bucket) →
       bucket ∈ dom (ds_buckets ds) →
       apply_each
         (λ vfilter events,
            apply_filter bucket_transform vfilter events ds limit start end_)
         fbefore (ds_get ds bucket limit start end_) = inr events →
       bucket_transform btransform ds limit start end_ = inl QueryException).
Proof.
  intros Hfs Hin Hname. split.
  - rewrite bucket_transform_eq, Hfs.
    destruct (bt_bucket btransform) as [[b| | |]|]; try by eauto.
    case_decide; [|by eauto].
    apply apply_each_raises with vfilter; [done|].
    intros events. rewrite apply_filter_unnamed by done. eauto.
  - intros bucket fbefore fafter events -> Hbucket Hthere Hbefore.
    rewrite bucket_transform_eq, Hfs, Hbucket, decide_True by done.
    rewrite apply_each_app, Hbefore. simpl.
    by rewrite apply_filter_unnamed.
Qed.

(** X22. A [timeperiod_intersect] filter whose nested transforms return no
    events, or that has an empty list of transforms, lets no event
    through. *)
Theorem timeperiod_intersect_nothing (tfilter : Filter) (transforms : list BucketTransform)
    (events : list Event) (ds : Datastore) (limit : Z) (start end_ : option Z) :
  f_transforms tfilter = Some transforms →
  Forall (λ t, bucket_transform t ds limit start end_ = inr []) transforms →
  timeperiod_intersect bucket_transform tfilter events ds limit start end_ = inr [].
Proof.
  intros Htr Hall. unfold timeperiod_intersect. rewrite Htr.
  assert (Hrs : Forall2 (λ t r, bucket_transform t ds limit start end_ = inr r)
                  transforms (replicate (length transforms) [])).
  { clear Htr. induction Hall; simpl; constructor; done. }
  rewrite (extend_each_results _ _ _ [] Hrs). simpl.
  assert (concat (replicate (length transforms) ([] : list Event)) = []) as ->.
  { clear. induction (length transforms) as [|n IH]; [done|]. simpl. exact IH. }
  by rewrite filter_period_intersect_nil_r.
Qed.

End query_further.

Section query_further_examples.
#[local] Existing Instance example_transforms.

Lemma query_concatenates_witness :
  let A := mkBucketTransform (Some (JStr "A")) None in
  let B := mkBucketTransform (Some (JStr "B")) None in
  query (mkQuery (Some [A]) None) scenario_datastore 0 None None
    = inr (EventList 1 [scenario_A])
  ∧ query (mkQuery (Some [B]) None) scenario_datastore 0 None None
    = inr (EventList 1 [scenario_B])
  ∧ query (mkQuery (Some ([A] ++ [B])) None) scenario_datastore 0 None None
    = inr (EventList (1 + 1) ([scenario_A] ++ [scenario_B])).
Proof.
  cbv zeta.
  assert (HA : query (mkQuery (Some [mkBucketTransform (Some (JStr "A")) None]) None)
                 scenario_datastore 0 None None = inr (EventList 1 [scenario_A]))
    by by vm_compute.
  assert (HB : query (mkQuery (Some [mkBucketTransform (Some (JStr "B")) None]) None)
                 scenario_datastore 0 None None = inr (EventList 1 [scenario_B]))
    by by vm_compute.
  split_and!; [exact HA|exact HB|].
  exact (query_concatenates _ _ _ _ _ _ _ _ _ _ _ HA HB).
Defined.

Lemma query_raises_at_first_witness :
  let A := mkBucketTransform (Some (JStr "A")) None in
  let B := mkBucketTransform (Some (JStr "B")) None in
  let C := mkBucketTransform (Some (JStr "C")) None in
  Forall2 (λ t r, bucket_transform t scenario_datastore 0 None None = inr r)
    [A] [[scenario_A]]
  ∧ bucket_transform C scenario_datastore 0 None None = inl QueryException
  ∧ query (mkQuery (Some ([A] ++ C :: [B])) None) scenario_datastore 0 None None
    = inl QueryException.
Proof.
  cbv zeta.
  assert (HA : Forall2
                 (λ t r, bucket_transform t scenario_datastore 0 None None = inr r)
                 [mkBucketTransform (Some (JStr "A")) None] [[scenario_A]]).
  { constructor; [by vm_compute|constructor]. }
  assert (HC : bucket_transform (mkBucketTransform (Some (JStr "C")) None)
                 scenario_datastore 0 None None = inl QueryException)
    by by vm_compute.
  split_and!; [exact HA|exact HC|].
  exact (query_raises_at_first _ [mkBucketTransform (Some (JStr "B")) None] _ _ _
           None _ _ _ _ HA HC).
Defined.

Lemma bucket_transform_unknown_filter_witness :
  let unknown := mkFilter (Some (JStr "merge")) None None in
  let labels := mkFilter (Some (JStr "exclude_labels")) None None in
  let fs := [labels] ++ unknown :: [labels] in
  let btransform := mkBucketTransform (Some (JStr "A")) (Some fs) in
  bt_filters btransform = Some fs
  ∧ unknown ∈ fs
  ∧ names_filter unknown = false
  ∧ bucket_transform btransform scenario_datastore 0 None None = inl QueryException.
Proof.
  cbv zeta.
  assert (Hin : mkFilter (Some (JStr "merge")) None None
                ∈ [mkFilter (Some (JStr "exclude_labels")) None None]
                  ++ mkFilter (Some (JStr "merge")) None None
                  :: [mkFilter (Some (JStr "exclude_labels")) None None]).
  { right. left. }
  split_and!; [reflexivity|exact Hin|reflexivity|].
  apply (proj2 (bucket_transform_unknown_filter
                  (mkBucketTransform (Some (JStr "A"))
                     (Some ([mkFilter (Some (JStr "exclude_labels")) None None]
                            ++ mkFilter (Some (JStr "merge")) None None
                            :: [mkFilter (Some (JStr "exclude_labels")) None None])))
                  _ _ scenario_datastore 0 None None eq_refl Hin eq_refl)
           "A" _ [mkFilter (Some (JStr "exclude_labels")) None None] [scenario_A]
           eq_refl eq_refl);
    by vm_compute.
Defined.

Lemma timeperiod_intersect_nothing_witness :
  let tfilter := mkFilter (Some (JStr "timeperiod_intersect")) None (Some []) in
  f_transforms tfilter = Some []
  ∧ Forall (λ t, bucket_transform t scenario_datastore 0 None None = inr []) []
  ∧ timeperiod_intersect bucket_transform tfilter [scenario_A] scenario_datastore
      0 None None = inr [].
Proof.
  cbv zeta. split_and!; [reflexivity|constructor|].
  exact (timeperiod_intersect_nothing
           (mkFilter (Some (JStr "timeperiod_intersect")) None (Some [])) []
           [scenario_A] scenario_datastore 0 None None eq_refl (Forall_nil_2 _)).
Defined.

End query_further_examples.

(** ** All the overlaps, and [union] before [period_union] *)

Lemma overlap_intersection (e1 e2 : Event) :
  overlap e1 e2
  = match TimePeriod.intersection (_get_event_period e1) (_get_event_period e2) with
    | Some ip => Some (_replace_event_period e1 ip)
    | None => None
    end.
Proof.
  unfold overlap, TimePeriod.intersection, _get_event_period, _replace_event_period.
  cbn. split_leb; try done; lia.
Qed.

(** A turn of the sweep on two events that last for some time lets out
    their overlap, and moves on from the event that ends first. *)
Lemma sweep_turn_overlap (e1 e2 : Event) :
  0 < duration e1 → 0 < duration e2 →
  ∃ out, clip out = option_list (overlap e1 e2)
    ∧ ((sweep_turn e1 e2 = (out, true, false)
        ∧ timestamp e1 + duration e1 <= timestamp e2 + duration e2)
       ∨ (sweep_turn e1 e2 = (out, false, true)
          ∧ timestamp e2 + duration e2 < timestamp e1 + duration e1)).
Proof.
  intros Hd1 Hd2. rewrite overlap_intersection. unfold sweep_turn. cbv zeta.
  destruct (TimePeriod.intersection _ _) as [ip|] eqn:Hip.
  - exists [Yield e1 e2 ip]. split; [done|]. simpl.
    destruct (Z.leb_spec (timestamp e1 + duration e1) (timestamp e2 + duration e2));
      [left|right]; done.
  - exists []. split; [done|].
    revert Hip. unfold TimePeriod.intersection, _get_event_period. cbn.
    destruct (Z.leb_spec (Z.min (timestamp e1 + duration e1) (timestamp e2 + duration e2))
                (Z.max (timestamp e1) (timestamp e2))); [intros _|done].
    destruct (Z.leb_spec (timestamp e1 + duration e1) (timestamp e2)); [left; split; [done|lia]|].
    destruct (Z.leb_spec (timestamp e2 + duration e2) (timestamp e1)); [right; split; [done|lia]|].
    lia.
Qed.

Lemma overlap_ends_by (e1 e2 : Event) :
  timestamp e1 + duration e1 <= timestamp e2 → overlap e1 e2 = None.
Proof. unfold overlap. cbv zeta. intros Hle. split_leb; [lia|done]. Qed.

Lemma overlap_starts_after (e1 e2 : Event) :
  timestamp e2 + duration e2 <= timestamp e1 → overlap e1 e2 = None.
Proof. unfold overlap. cbv zeta. intros Hle. split_leb; [lia|done]. Qed.

Lemma omap_overlap_cons (e1 e2 : Event) (l2 : list Event) :
  omap (overlap e1) (e2 :: l2) = option_list (overlap e1 e2) ++ omap (overlap e1) l2.
Proof. change (omap (overlap e1) (e2 :: l2)) with
         (match overlap e1 e2 with
          | Some o => o :: omap (overlap e1) l2
          | None => omap (overlap e1) l2
          end).
       by destruct (overlap e1 e2).
Qed.

Lemma overlaps_cons (e1 : Event) (l1 l2 : list Event) :
  overlaps (e1 :: l1) l2 = omap (overlap e1) l2 ++ overlaps l1 l2.
Proof. reflexivity. Qed.

Lemma overlaps_none_later (e1 : Event) (l2 : list Event) :
  Forall (λ e2, timestamp e1 + duration e1 <= timestamp e2) l2 →
  omap (overlap e1) l2 = [].
Proof.
  induction 1 as [|e2 l2 He2 _ IH]; [done|].
  by rewrite omap_overlap_cons, overlap_ends_by, IH.
Qed.

Lemma overlaps_skip (e2 : Event) (l1 l2 : list Event) :
  Forall (λ e1, timestamp e2 + duration e2 <= timestamp e1) l1 →
  overlaps l1 (e2 :: l2) = overlaps l1 l2.
Proof.
  induction 1 as [|e1 l1 He1 _ IH]; [done|].
  by rewrite !overlaps_cons, omap_overlap_cons, overlap_starts_after, IH.
Qed.

Lemma overlaps_nil_r (l1 : list Event) : overlaps l1 [] = [].
Proof. induction l1 as [|e1 l1 IH]; [done|]. by rewrite overlaps_cons, IH. Qed.

(** On two lists of events that last for some time, each list with every
    event ending no later than the next starts, the sweep finds every
    overlap. *)
Lemma sweep_rest_overlaps (l1 : list Event) :
  ∀ l2,
    StronglySorted ends_by l1 → StronglySorted ends_by l2 →
    Forall (λ e, 0 < duration e) l1 → Forall (λ e, 0 < duration e) l2 →
    clip (sweep_rest l1 l2) = overlaps l1 l2.
Proof.
  induction l1 as [|e1 l1 IH1]; intros l2 Hs1 Hs2 Hd1 Hd2.
  { by rewrite sweep_rest_nil_l. }
  induction l2 as [|e2 l2 IH2].
  { by rewrite sweep_rest_nil_r, overlaps_nil_r. }
  pose proof Hs1 as [Hs1' Hall1]%StronglySorted_inv.
  pose proof Hs2 as [Hs2' Hall2]%StronglySorted_inv.
  pose proof Hd1 as [He1 Hd1']%Forall_cons.
  pose proof Hd2 as [He2 Hd2']%Forall_cons.
  rewrite sweep_rest_cons.
  destruct (sweep_turn_overlap e1 e2 He1 He2) as (out & Hout & [[-> Hle]|[-> Hlt]]).
  - rewrite clip_app, Hout, IH1 by done.
    rewrite overlaps_cons, omap_overlap_cons, (overlaps_none_later e1 l2).
    + by rewrite app_nil_r.
    + eapply Forall_impl; [exact Hall2|]. intros x. unfold ends_by. lia.
  - rewrite clip_app, Hout, IH2 by done.
    rewrite !overlaps_cons, omap_overlap_cons, (overlaps_skip e2 l1 l2).
    + by rewrite app_assoc.
    + eapply Forall_impl; [exact Hall1|]. intros x. unfold ends_by. lia.
Qed.

Lemma ends_by_key_le (l : list Event) :
  Forall (λ e, 0 < duration e) l →
  StronglySorted ends_by l → StronglySorted key_le l.
Proof.
  intros Hd Hs. induction Hs as [|x l Hs IH Hall]; [constructor|].
  apply Forall_cons in Hd as [Hx Hd]. constructor; [auto|].
  eapply Forall_impl; [exact Hall|].
  intros y. unfold ends_by, key_le. lia.
Qed.

(** X23. [filter_period_intersect] returns every overlap, and each once,
    when the events of both lists last for some time and, in each list as
    it is given, every event ends no later than the next one starts: the
    result is each event of the first list cut to its overlap with each
    filter event that it overlaps, in the order of the lists. No overlap of
    an event with a filter event is then left out. *)
Theorem filter_period_intersect_complete (events filterevents : list Event) :
  StronglySorted ends_by events → StronglySorted ends_by filterevents →
  Forall (λ e, 0 < duration e) events → Forall (λ e, 0 < duration e) filterevents →
  filter_period_intersect events filterevents = overlaps events filterevents
  ∧ ∀ e1 e2 o, e1 ∈ events → e2 ∈ filterevents → overlap e1 e2 = Some o →
      o ∈ filter_period_intersect events filterevents.
Proof.
  intros Hs1 Hs2 Hd1 Hd2.
  assert (Heq : filter_period_intersect events filterevents = overlaps events filterevents).
  { rewrite filter_period_intersect_sweep, !sorted_id by by apply ends_by_key_le.
    by apply sweep_rest_overlaps. }
  split; [done|]. intros e1 e2 o H1 H2 Ho. rewrite Heq.
  unfold overlaps. apply list_elem_of_In, in_flat_map. exists e1.
  split; [by apply list_elem_of_In|].
  apply list_elem_of_In, list_elem_of_omap. by exists e2.
Qed.

Lemma filter_period_intersect_complete_witness :
  let events := [mkEvent 0 10 {["app" := "a"]}; mkEvent 10 5 {["app" := "b"]}] in
  let filterevents := [mkEvent 2 3 ∅; mkEvent 8 4 ∅; mkEvent 20 1 ∅] in
  StronglySorted ends_by events ∧ StronglySorted ends_by filterevents
  ∧ Forall (λ e, 0 < duration e) events ∧ Forall (λ e, 0 < duration e) filterevents
  ∧ filter_period_intersect events filterevents
    = [mkEvent 2 3 {["app" := "a"]}; mkEvent 8 2 {["app" := "a"]};
       mkEvent 10 2 {["app" := "b"]}]
  ∧ filter_period_intersect events filterevents = overlaps events filterevents.
Proof.
  cbv zeta.
  assert (Hs1 : StronglySorted ends_by
                  [mkEvent 0 10 {["app" := "a"]}; mkEvent 10 5 {["app" := "b"]}]).
  { repeat constructor; unfold ends_by; simpl; lia. }
  assert (Hs2 : StronglySorted ends_by [mkEvent 2 3 ∅; mkEvent 8 4 ∅; mkEvent 20 1 ∅]).
  { repeat constructor; unfold ends_by; simpl; lia. }
  assert (Hd1 : Forall (λ e, 0 < duration e)
                  [mkEvent 0 10 {["app" := "a"]}; mkEvent 10 5 {["app" := "b"]}]).
  { repeat constructor. }
  assert (Hd2 : Forall (λ e, 0 < duration e)
                  [mkEvent 2 3 ∅; mkEvent 8 4 ∅; mkEvent 20 1 ∅]).
  { repeat constructor. }
  split_and!; [exact Hs1|exact Hs2|exact Hd1|exact Hd2| |].
  - rewrite (proj1 (filter_period_intersect_complete _ _ Hs1 Hs2 Hd1 Hd2)).
    reflexivity.
  - exact (proj1 (filter_period_intersect_complete _ _ Hs1 Hs2 Hd1 Hd2)).
Defined.

(** X24. Sorting first changes nothing: [period_union] of two lists is
    [period_union] of their [union] and the empty list, and the [union] of
    a [union] with the empty list is that [union]. *)
Theorem period_union_of_union (events1 events2 : list Event) :
  period_union (aw_transform.union events1 events2) []
  = period_union events1 events2
  ∧ aw_transform.union (aw_transform.union events1 events2) []
    = aw_transform.union events1 events2.
Proof.
  unfold aw_transform.union, period_union. rewrite !app_nil_r.
  by rewrite (sorted_id (sorted (events1 ++ events2))) by apply sorted_ascending.
Qed.

(** ** Further examples *)

Lemma period_union_size_witness :
  ([] : list Event) = [] ∧ ([] : list Event) = [] ∧ period_union [] [] = [].
Proof.
  split_and!; [reflexivity..|].
  exact (proj2 (proj2 (period_union_size [] [])) (conj eq_refl eq_refl)).
Defined.

Lemma memory_insert_one_appends_witness :
  "A" ≠ "B"
  ∧ MemoryStorageStrategy.get
      (MemoryStorageStrategy.insert_one scenario_store "B" scenario_A) "A" 0
    = MemoryStorageStrategy.get scenario_store "A" 0.
Proof.
  assert (Hne : "A" ≠ "B") by done.
  split; [exact Hne|].
  exact (proj1 (proj2 (proj2 (memory_insert_one_appends scenario_store "B" scenario_A)))
           "A" 0 Hne).
Defined.

Lemma memory_create_bucket_resets_witness :
  "A" ≠ "B"
  ∧ MemoryStorageStrategy.get
      (MemoryStorageStrategy.create_bucket scenario_store "B" "afk" "client" "host"
         1 None) "A" 0
    = MemoryStorageStrategy.get scenario_store "A" 0.
Proof.
  assert (Hne : "A" ≠ "B") by done.
  split; [exact Hne|].
  exact (proj1 (proj2 (proj2 (memory_create_bucket_resets scenario_store
                                "B" "afk" "client" "host" 1 None)))
           "A" 0 Hne).
Defined.
